(** * Uptime Watchdog: a shallow embedding of [main.py]

    The service probes registered URLs, stores one row per probe and derives
    uptime percentages, a p95 latency, a composite score and a letter grade.

    Conventions of the embedding.
    - Python [float] values are idealised as exact rationals ([Q]): every
      arithmetic operation is the exact one, so equalities between computed
      numbers are stated with [==] ([Qeq]).  Python [int] is [Z].  The
      Scorer is embedded a second time, in module [Binary64], on IEEE 754
      binary64 numbers, to evaluate it as the interpreter does.
    - Exceptions are explicit: fallible code returns a [result].
    - The SQLite file is a record of two tables (lists of rows, in rowid
      order) and the AUTOINCREMENT counter.  Timestamps, which the source
      stores as ISO-8601 UTC text and compares as text, are integers
      (microseconds since the epoch); for equal-offset ISO text the two
      orders agree.
    - The clock and the network are oracles indexed by the number of
      interactions with the outside world performed so far.  What the
      [HttpUrl] type of the validation library accepts is a third oracle, a
      function of the string. *)

From Stdlib Require Import Ascii String Floats.
From Stdlib Require Import ZArith QArith Qround Lqa Lia Bool List Permutation.
From Stdlib Require Import Sorted.
Import ListNotations.

Open Scope Q_scope.

(** ** Exceptions and results *)

Inductive exn : Type :=
| IndexError
| ZeroDivisionError
| IntegrityError
| AssertionError
| ValidationError
| HttpException (msg : string).

Inductive result (A : Type) : Type :=
| Ok (a : A)
| Raise (e : exn).

Arguments Ok {A} a.
Arguments Raise {A} e.

Definition rbind {A B : Type} (m : result A) (k : A -> result B) : result B :=
  match m with
  | Ok a => k a
  | Raise e => Raise e
  end.

Notation "x <- m ;; k" := (rbind m (fun x => k))
  (at level 61, m at next level, right associativity).

(** ** Python primitives on numbers and lists *)

Definition Qlt_bool (a b : Q) : bool := negb (Qle_bool b a).

(** [min(a, b)] keeps [a] unless [b < a]; [max(a, b)] keeps [a] unless
    [b > a]. *)
Definition py_min (a b : Q) : Q := if Qlt_bool b a then b else a.
Definition py_max (a b : Q) : Q := if Qlt_bool a b then b else a.

(** [int(x)] on a float truncates towards zero. *)
Definition py_int (x : Q) : Z :=
  if Qle_bool 0 x then Qfloor x else Qceiling x.

(** [a / b] on numbers. *)
Definition py_div (a b : Q) : result Q :=
  if Qeq_bool b 0 then Raise ZeroDivisionError else Ok (a / b).

(** [l[i]] with Python's negative indices. *)
Definition py_getitem {A : Type} (l : list A) (i : Z) : result A :=
  let n := Z.of_nat (length l) in
  let j := if (i <? 0)%Z then (i + n)%Z else i in
  if ((j <? 0) || (n <=? j))%Z then Raise IndexError
  else match nth_error l (Z.to_nat j) with
       | Some x => Ok x
       | None => Raise IndexError
       end.

(** [sorted(values)]: a stable ascending sort. *)
Fixpoint insert_sorted (x : Q) (l : list Q) : list Q :=
  match l with
  | [] => [x]
  | y :: l' => if Qle_bool x y then x :: l else y :: insert_sorted x l'
  end.

Fixpoint sorted (l : list Q) : list Q :=
  match l with
  | [] => []
  | x :: l' => insert_sorted x (sorted l')
  end.

(** [min(values)] and [max(values)] of a non-empty list; [None] stands for
    the [ValueError] on an empty one. *)
Definition list_min (l : list Q) : option Q :=
  match l with
  | [] => None
  | x :: l' => Some (fold_left py_min l' x)
  end.

Definition list_max (l : list Q) : option Q :=
  match l with
  | [] => None
  | x :: l' => Some (fold_left py_max l' x)
  end.

(** [round(x, ndigits)]: round half to even at [ndigits] decimals. *)
Definition round_half_even (y : Q) : Z :=
  let f := Qfloor y in
  let d := y - inject_Z f in
  if Qlt_bool d (1 # 2) then f
  else if Qlt_bool (1 # 2) d then (f + 1)%Z
  else if Z.even f then f else (f + 1)%Z.

Definition pow10 (ndigits : nat) : Q := inject_Z (10 ^ Z.of_nat ndigits).

Definition py_round (x : Q) (ndigits : nat) : Q :=
  inject_Z (round_half_even (x * pow10 ndigits)) / pow10 ndigits.

(** ** Percentile Estimator *)

Definition percentile (values : list Q) (p : Q) : result (option Q) :=
  match values with
  | [] => Ok None
  | _ :: _ =>
    let values_sorted := sorted values in
    let k := inject_Z (Z.of_nat (length values_sorted) - 1) * (p / 100) in
    let f := Qfloor k in
    let c := Qceiling k in
    if (f =? c)%Z then
      v <- py_getitem values_sorted (py_int k) ;;
      Ok (Some v)
    else
      v0 <- py_getitem values_sorted f ;;
      let d0 := v0 * (inject_Z c - k) in
      v1 <- py_getitem values_sorted c ;;
      let d1 := v1 * (k - inject_Z f) in
      Ok (Some (d0 + d1))
  end.

(** The estimator as the specification words it: sort ascending, take the
    real rank [k = (n-1)*p/100], and interpolate between the neighbours of
    [k]; positions are read with a default, no range check. *)
Definition percentile_spec (samples : list Q) (p : Q) : option Q :=
  match samples with
  | [] => None
  | _ :: _ =>
    let s := sorted samples in
    let n := Z.of_nat (length samples) in
    let k := inject_Z (n - 1) * p / 100 in
    let f := Qfloor k in
    let c := Qceiling k in
    let at_ (i : Z) := nth (Z.to_nat i) s 0 in
    Some (if (f =? c)%Z then at_ f
          else at_ f * (inject_Z c - k) + at_ c * (k - inject_Z f))
  end.

(** ** Scorer *)

Definition grade_of (score : Q) : string :=
  if Qle_bool 97 score then "A+"
  else if Qle_bool 93 score then "A"
  else if Qle_bool 90 score then "A-"
  else if Qle_bool 87 score then "B+"
  else if Qle_bool 83 score then "B"
  else if Qle_bool 80 score then "B-"
  else if Qle_bool 77 score then "C+"
  else if Qle_bool 73 score then "C"
  else if Qle_bool 70 score then "C-"
  else if Qle_bool 60 score then "D"
  else "F".

Definition latency_score_of (p95_ms : option Q) : Q :=
  match p95_ms with
  | None => 0
  | Some p =>
    if Qle_bool p 300 then 100
    else if Qle_bool 3000 p then 0
    else 100 * (3000 - p) / (3000 - 300)
  end.

Definition score_and_grade (uptime_pct : Q) (p95_ms : option Q) : Q * string :=
  let uptime_score := py_max 0 (py_min 100 uptime_pct) in
  let latency_score := latency_score_of p95_ms in
  let score := (7 # 10) * uptime_score + (3 # 10) * latency_score in
  (score, grade_of score).

Definition grades : list string :=
  ["A+"; "A"; "A-"; "B+"; "B"; "B-"; "C+"; "C"; "C-"; "D"; "F"]%string.

(** ** Scorer on binary64 floats *)

Set Warnings "-inexact-float".

Module Binary64.

Definition py_min (a b : float) : float := if PrimFloat.ltb b a then b else a.
Definition py_max (a b : float) : float := if PrimFloat.ltb a b then b else a.

Definition grade_of (score : float) : string :=
  if PrimFloat.leb 97 score then "A+"
  else if PrimFloat.leb 93 score then "A"
  else if PrimFloat.leb 90 score then "A-"
  else if PrimFloat.leb 87 score then "B+"
  else if PrimFloat.leb 83 score then "B"
  else if PrimFloat.leb 80 score then "B-"
  else if PrimFloat.leb 77 score then "C+"
  else if PrimFloat.leb 73 score then "C"
  else if PrimFloat.leb 70 score then "C-"
  else if PrimFloat.leb 60 score then "D"
  else "F".

Definition latency_score_of (p95_ms : option float) : float :=
  match p95_ms with
  | None => 0%float
  | Some p =>
    if PrimFloat.leb p 300 then 100%float
    else if PrimFloat.leb 3000 p then 0%float
    else (100 * (3000 - p) / (3000 - 300))%float
  end.

Definition score_and_grade (uptime_pct : float) (p95_ms : option float)
  : float * string :=
  let uptime_score := py_max 0 (py_min 100 uptime_pct) in
  let latency_score := latency_score_of p95_ms in
  let score := (0.7 * uptime_score + 0.3 * latency_score)%float in
  (score, grade_of score).

End Binary64.

(** ** The database *)

Record check_row : Type := mk_check {
  c_id : Z;
  c_url : string;
  c_created_at : Z
}.

Record result_row : Type := mk_result {
  r_id : Z;
  r_check_id : Z;
  r_ts : Z;
  r_ok : Z;
  r_status_code : option Z;
  r_elapsed_ms : option Q;
  r_error : option string
}.

(** Both tables keep their rows in rowid order; [checks_seq] and
    [results_seq] are the AUTOINCREMENT counters. *)
Record database : Type := mk_db {
  checks : list check_row;
  checks_seq : Z;
  results : list result_row;
  results_seq : Z
}.

(** A fresh file after [init_db]. *)
Definition empty_db : database := mk_db [] 0 [] 0.

(** ** The outside world and the monad of effects *)

(** What [client.get] can do: complete with a status code, or raise. *)
Inductive http_outcome : Type :=
| Responded (status_code : Z)
| Failed (msg : string).

Record world : Type := mk_world {
  w_db : database;
  w_steps : nat;
  w_clock : nat -> Z;
  w_http : nat -> string -> http_outcome;
  w_url_ok : string -> bool
}.

Definition initial (clock : nat -> Z) (http : nat -> string -> http_outcome)
    (url_ok : string -> bool) : world :=
  mk_world empty_db 0 clock http url_ok.

Definition advance (w : world) : world :=
  mk_world (w_db w) (S (w_steps w)) (w_clock w) (w_http w) (w_url_ok w).

Definition with_db (w : world) (db : database) : world :=
  mk_world db (w_steps w) (w_clock w) (w_http w) (w_url_ok w).

Definition M (A : Type) : Type := world -> result A * world.

Definition mret {A : Type} (a : A) : M A := fun w => (Ok a, w).

Definition mraise {A : Type} (e : exn) : M A := fun w => (Raise e, w).

Definition mbind {A B : Type} (m : M A) (k : A -> M B) : M B :=
  fun w =>
    match m w with
    | (Ok a, w') => k a w'
    | (Raise e, w') => (Raise e, w')
    end.

Definition lift {A : Type} (r : result A) : M A := fun w => (r, w).

(** [try: body except Exception as e: handler e]; every exception of the
    model is an [Exception]. *)
Definition try_except {A : Type} (body : M A) (handler : exn -> M A) : M A :=
  fun w =>
    match body w with
    | (Ok a, w') => (Ok a, w')
    | (Raise e, w') => handler e w'
    end.

Notation "x <~ m ;; k" := (mbind m (fun x => k))
  (at level 61, m at next level, right associativity).

Fixpoint for_each {A B : Type} (l : list A) (body : A -> M B) : M (list B) :=
  match l with
  | [] => mret []
  | a :: l' =>
    b <~ body a ;;
    bs <~ for_each l' body ;;
    mret (b :: bs)
  end.

Definition get_db : M database := fun w => (Ok (w_db w), w).

(** [datetime.now(timezone.utc)], in microseconds. *)
Definition now_utc : M Z :=
  fun w => (Ok (w_clock w (w_steps w)), advance w).

(** [await client.get(url, timeout=HTTP_TIMEOUT)]: a response, or one of
    the exceptions of the HTTP client (connection, timeout, DNS, protocol).
    Cancellation of the running task is outside the model. *)
Definition client_get (url : string) : M Z :=
  fun w =>
    match w_http w (w_steps w) url with
    | Responded status_code => (Ok status_code, advance w)
    | Failed msg => (Raise (HttpException msg), advance w)
    end.

(** Building a response model with a field [url: HttpUrl] validates the
    string: [ValidationError] when the library refuses it. *)
Definition validate_url (u : string) : M string :=
  fun w => if w_url_ok w u then (Ok u, w) else (Raise ValidationError, w).

(** [str(e)] and the slice [s[:n]]. *)
Definition str_exn (e : exn) : string :=
  match e with
  | IndexError => "list index out of range"
  | ZeroDivisionError => "division by zero"
  | IntegrityError => "UNIQUE constraint failed"
  | AssertionError => ""
  | ValidationError => "validation error"
  | HttpException msg => msg
  end.

Fixpoint str_prefix (n : nat) (s : string) : string :=
  match n, s with
  | S n', String c s' => String c (str_prefix n' s')
  | _, _ => EmptyString
  end.

(** ** Data access *)

Definition select_all_checks : M (list check_row) :=
  db <~ get_db ;;
  mret (checks db).

(** The INSERT into [checks]: the UNIQUE constraint on [url] makes it raise
    and leave the table alone when the URL is already there. *)
Definition execute_insert_check (url : string) (created_at : Z) : M Z :=
  fun w =>
    let db := w_db w in
    if existsb (fun r => String.eqb (c_url r) url) (checks db)
    then (Raise IntegrityError, w)
    else
      let id := (checks_seq db + 1)%Z in
      (Ok id,
       with_db w (mk_db (checks db ++ [mk_check id url created_at]) id
                        (results db) (results_seq db))).

Definition select_id_by_url (url : string) : M (option Z) :=
  db <~ get_db ;;
  mret (option_map c_id
          (find (fun r => String.eqb (c_url r) url) (checks db))).

Definition insert_check (url : string) : M Z :=
  try_except
    (created_at <~ now_utc ;;
     lastrowid <~ execute_insert_check url created_at ;;
     mret lastrowid)
    (fun e =>
       match e with
       | IntegrityError =>
         existing <~ select_id_by_url url ;;
         match existing with
         | Some id => mret id
         | None => mraise e
         end
       | _ => mraise e
       end).

Definition execute_insert_result (check_id ts ok : Z) (status_code : option Z)
    (elapsed_ms : option Q) (error : option string) : M unit :=
  fun w =>
    let db := w_db w in
    let id := (results_seq db + 1)%Z in
    (Ok tt,
     with_db w (mk_db (checks db) (checks_seq db)
                      (results db ++
                       [mk_result id check_id ts ok status_code elapsed_ms error])
                      id)).

Definition insert_result (check_id : Z) (ok : bool) (status_code : option Z)
    (elapsed_ms : option Q) (error : option string) : M unit :=
  ts <~ now_utc ;;
  execute_insert_result check_id ts (if ok then 1 else 0)%Z
                        status_code elapsed_ms error.

(** The columns [fetch_results_since] selects. *)
Record result_view : Type := mk_view {
  v_ok : Z;
  v_status_code : option Z;
  v_elapsed_ms : option Q;
  v_ts : Z
}.

Definition view_of (r : result_row) : result_view :=
  mk_view (r_ok r) (r_status_code r) (r_elapsed_ms r) (r_ts r).

(** [ORDER BY ts ASC]; rows of equal [ts] keep their rowid order. *)
Fixpoint insert_by_ts (x : result_view) (l : list result_view)
  : list result_view :=
  match l with
  | [] => [x]
  | y :: l' =>
    if (v_ts x <=? v_ts y)%Z then x :: l else y :: insert_by_ts x l'
  end.

Fixpoint order_by_ts (l : list result_view) : list result_view :=
  match l with
  | [] => []
  | x :: l' => insert_by_ts x (order_by_ts l')
  end.

Definition in_window (check_id since : Z) (r : result_row) : bool :=
  ((r_check_id r =? check_id) && (since <=? r_ts r))%Z.

(** The SELECT of [fetch_results_since] on a given database. *)
Definition select_since (db : database) (check_id since : Z)
  : list result_view :=
  order_by_ts (map view_of (filter (in_window check_id since) (results db))).

Definition fetch_results_since (check_id since : Z) : M (list result_view) :=
  db <~ get_db ;;
  mret (select_since db check_id since).

(** ** Probe Executor *)

(** [(finish - start).total_seconds() * 1000.0] on microsecond readings. *)
Definition elapsed_ms_between (start finish : Z) : Q :=
  inject_Z (finish - start) / 1000000 * 1000.

Definition check_once (check_id : Z) (url : string) : M unit :=
  try_except
    (start <~ now_utc ;;
     status_code <~ client_get url ;;
     finish <~ now_utc ;;
     let elapsed_ms := elapsed_ms_between start finish in
     let ok := ((200 <=? status_code) && (status_code <? 400))%Z in
     insert_result check_id ok (Some status_code) (Some elapsed_ms) None)
    (fun e =>
       insert_result check_id false None None
                     (Some (str_prefix 300 (str_exn e)))).

(** One round of [monitor_loop], the probes taken one after the other in
    registry order (one of the schedules [asyncio.gather] allows). *)
Definition monitor_tick : M unit :=
  rows <~ select_all_checks ;;
  _ <~ for_each rows (fun row => check_once (c_id row) (c_url row)) ;;
  mret tt.

(** ** Registration endpoint *)

(** [CheckOut(id=row["id"], url=row["url"], created_at=row["created_at"])] *)
Definition CheckOut (row : check_row) : M check_row :=
  u <~ validate_url (c_url row) ;;
  mret (mk_check (c_id row) u (c_created_at row)).

(** [url] is [str(payload.url)], the text of the submitted URL as the
    request model holds it. *)
Definition api_add_check (url : string) : M check_row :=
  check_id <~ insert_check url ;;
  rows <~ select_all_checks ;;
  match find (fun r => (c_id r =? check_id)%Z) rows with
  | Some row => CheckOut row
  | None => mraise AssertionError
  end.

(** ** Status Aggregator *)

Record StatusItem : Type := mk_status {
  url : string;
  uptime_24h : Q;
  uptime_7d : Q;
  p95_ms_24h : option Q;
  total_samples_24h : Z;
  grade : string;
  score : Q
}.

Definition len {A : Type} (l : list A) : Z := Z.of_nat (length l).

Definition sum_ok (rows : list result_view) : Z :=
  fold_left (fun acc rr => (acc + v_ok rr)%Z) rows 0%Z.

(** [(sum(rr["ok"] for rr in rows) / len(rows) * 100.0) if rows else 0.0] *)
Definition uptime_of (rows : list result_view) : result Q :=
  match rows with
  | [] => Ok 0
  | _ :: _ =>
    q <- py_div (inject_Z (sum_ok rows)) (inject_Z (len rows)) ;;
    Ok (q * 100)
  end.

(** [[rr["elapsed_ms"] for rr in rows
      if rr["ok"] and rr["elapsed_ms"] is not None]] *)
Definition latencies_of (rows : list result_view) : list Q :=
  flat_map (fun rr =>
              if (v_ok rr =? 0)%Z then []
              else match v_elapsed_ms rr with
                   | Some e => [e]
                   | None => []
                   end) rows.

Definition hours_24 : Z := 24 * 3600 * 1000000.
Definition days_7 : Z := 7 * 24 * 3600 * 1000000.

Definition status_of (now : Z) (r : check_row) : M StatusItem :=
  r24 <~ fetch_results_since (c_id r) (now - hours_24)%Z ;;
  r7 <~ fetch_results_since (c_id r) (now - days_7)%Z ;;
  up24 <~ lift (uptime_of r24) ;;
  up7 <~ lift (uptime_of r7) ;;
  let latencies_24 := latencies_of r24 in
  p95_24 <~ lift (percentile latencies_24 95) ;;
  let sg := score_and_grade up24 p95_24 in
  u <~ validate_url (c_url r) ;;
  mret (mk_status u
                  (py_round up24 2)
                  (py_round up7 2)
                  (option_map (fun p => py_round p 1) p95_24)
                  (len r24)
                  (snd sg)
                  (py_round (fst sg) 1)).

Definition api_status : M (list StatusItem) :=
  rows <~ select_all_checks ;;
  now <~ now_utc ;;
  for_each rows (status_of now).

(** ** Histories *)

(** What can happen to the service: a registration, a probe, a status
    query. *)
Inductive request : Type :=
| Register (url : string)
| Probe (check_id : Z) (url : string)
| Tick
| Status.

Definition handle (w : world) (rq : request) : world :=
  match rq with
  | Register u => snd (api_add_check u w)
  | Probe check_id u => snd (check_once check_id u w)
  | Tick => snd (monitor_tick w)
  | Status => snd (api_status w)
  end.

Definition run (history : list request) (w : world) : world :=
  fold_left handle history w.

(** ** Invariants and display precision *)

(** Every registered URL is accepted by the validator. *)
Definition urls_ok (w : world) : bool :=
  forallb (w_url_ok w) (map c_url (checks (w_db w))).

Definition known (db : database) (u : string) : bool :=
  existsb (fun r => String.eqb (c_url r) u) (checks db).

Definition urls (db : database) : list string := map c_url (checks db).

(** Every stored [ok] flag is the 0 or 1 that [insert_result] writes. *)
Definition ok_valid (rows : list result_row) : Prop :=
  Forall (fun r => r_ok r = 0%Z \/ r_ok r = 1%Z) rows.

Definition db_ok (db : database) : Prop :=
  NoDup (urls db)
  /\ (0 <= checks_seq db)%Z
  /\ Forall (fun r => (0 < c_id r <= checks_seq db)%Z) (checks db)
  /\ NoDup (map c_id (checks db))
  /\ ok_valid (results db).

(** The rows of a target inside a window, and the successful ones. *)
Definition window (db : database) (check_id since : Z) : list result_row :=
  filter (in_window check_id since) (results db).

Definition successes (rows : list result_row) : list result_row :=
  filter (fun r => (r_ok r =? 1)%Z) rows.

(** The elapsed times recorded on the successful rows. *)
Definition success_latencies (rows : list result_row) : list Q :=
  flat_map (fun r => match r_elapsed_ms r with
                     | Some e => [e]
                     | None => []
                     end) (successes rows).

(** Uptime as the specification words it: 100 times the successes over
    all the rows of the window, 0 on an empty window. *)
Definition uptime_spec (rows : list result_row) : Q :=
  match rows with
  | [] => 0
  | _ :: _ => 100 * inject_Z (len (successes rows)) / inject_Z (len rows)
  end.

(** [x] has at most [ndigits] decimals. *)
Definition has_decimals (ndigits : nat) (x : Q) : Prop :=
  py_round x ndigits == x.

(** ** Concrete worlds used in examples *)

Definition clock_ms (n : nat) : Z := (1000000000000 + 1500 * Z.of_nat n)%Z.

Definition http_500 (_ : nat) (_ : string) : http_outcome := Responded 500.
Definition http_200 (_ : nat) (_ : string) : http_outcome := Responded 200.
Definition http_down (_ : nat) (_ : string) : http_outcome :=
  Failed "All connection attempts failed".

(** A validator that refuses the texts of more than 2083 characters. *)
Definition short_url (u : string) : bool := (String.length u <=? 2083)%nat.

(** The first probe of a URL succeeds, the next two find a server error. *)
Definition http_flaky (n : nat) (_ : string) : http_outcome :=
  if (n <? 5)%nat then Responded 200 else Responded 503.

Definition history_flaky : list request :=
  [Register "https://example.org/"; Tick; Tick; Tick].

Definition flaky_world : world := run history_flaky (initial clock_ms http_flaky short_url).

(** The same world after one more registration. *)
Definition registered_world : world :=
  snd (api_add_check "https://example.org/" flaky_world).

(** Ten rows of one window: eight successes with latencies 100, 150, ...,
    450 ms and two failures. *)
Definition ten_rows : list result_view :=
  map (fun e => mk_view 1 (Some 200%Z) (Some e) 0)
      [100; 150; 200; 250; 300; 350; 400; 450]
  ++ [mk_view 0 None None 0; mk_view 0 (Some 500%Z) (Some 12) 0].

(** ** Notions used in the statements *)

(** Ascending order: every element is below all the later ones. *)
Inductive ascending : list Q -> Prop :=
| asc_nil : ascending []
| asc_cons x l : (forall y, In y l -> x <= y) -> ascending l -> ascending (x :: l).

(** The row an invocation appends, by the outcome of the request. *)
Definition probe_row (w : world) (check_id : Z) (url : string) : result_row :=
  let id := (results_seq (w_db w) + 1)%Z in
  match w_http w (S (w_steps w)) url with
  | Responded status_code =>
    mk_result id check_id (w_clock w (S (S (S (w_steps w)))))
              (if ((200 <=? status_code) && (status_code <? 400))%Z
               then 1 else 0)%Z
              (Some status_code)
              (Some (elapsed_ms_between (w_clock w (w_steps w))
                                        (w_clock w (S (S (w_steps w))))))
              None
  | Failed msg =>
    mk_result id check_id (w_clock w (S (S (w_steps w)))) 0%Z None None
              (Some (str_prefix 300 msg))
  end.

(** A failure record as the specification describes it: not ok, a
    description of at most 300 characters, no latency and no status code. *)
Definition failure_record_as_specified (row : result_row) : Prop :=
  r_ok row = 0%Z
  /\ (exists d, r_error row = Some d /\ (String.length d <= 300)%nat)
  /\ r_elapsed_ms row = None
  /\ r_status_code row = None.

(** The snapshot of one target at time [now], from what the code computes. *)
Definition snapshot_computed (db : database) (now : Z) (r : check_row)
    (item : StatusItem) : Prop :=
  let r24 := select_since db (c_id r) (now - hours_24) in
  let r7 := select_since db (c_id r) (now - days_7) in
  exists up24 up7 p95,
    uptime_of r24 = Ok up24
    /\ uptime_of r7 = Ok up7
    /\ percentile (latencies_of r24) 95 = Ok p95
    /\ item = mk_status (c_url r) (py_round up24 2) (py_round up7 2)
                        (option_map (fun p => py_round p 1) p95)
                        (len r24)
                        (snd (score_and_grade up24 p95))
                        (py_round (fst (score_and_grade up24 p95)) 1).

(** The snapshot of one target with the precision of every displayed
    number: the uptimes carry two decimals, the p95 and the score one, each
    the rounding of the full-precision value, and the grade is the one of
    the full-precision score. *)
Definition snapshot_displayed (db : database) (now : Z) (r : check_row)
    (item : StatusItem) : Prop :=
  let r24 := select_since db (c_id r) (now - hours_24) in
  let r7 := select_since db (c_id r) (now - days_7) in
  exists up24 up7 p95,
    uptime_of r24 = Ok up24
    /\ uptime_of r7 = Ok up7
    /\ percentile (latencies_of r24) 95 = Ok p95
    /\ (uptime_24h item = py_round up24 2 /\ has_decimals 2 (uptime_24h item))
    /\ (uptime_7d item = py_round up7 2 /\ has_decimals 2 (uptime_7d item))
    /\ (p95_ms_24h item = option_map (fun p => py_round p 1) p95
        /\ match p95_ms_24h item with
           | Some q => has_decimals 1 q
           | None => True
           end)
    /\ (score item = py_round (fst (score_and_grade up24 p95)) 1
        /\ has_decimals 1 (score item))
    /\ grade item = snd (score_and_grade up24 p95).

(** No stored row belongs to the target. *)
Definition no_history (db : database) (r : check_row) : bool :=
  forallb (fun row => negb (r_check_id row =? c_id r)%Z) (results db).

Definition zero_snapshot (item : StatusItem) : Prop :=
  uptime_24h item == 0
  /\ uptime_7d item == 0
  /\ p95_ms_24h item = None
  /\ total_samples_24h item = 0%Z
  /\ score item == 0
  /\ grade item = "F"%string.

(** The trailing windows of the specification, in microseconds, and the
    results of a target at or after a cutoff as the specification words the
    window. *)
Definition day_us : Z := 86400000000.

Definition window_spec (db : database) (check_id since : Z)
  : list result_row :=
  filter (fun r => ((r_check_id r =? check_id) && (since <=? r_ts r))%Z)
         (results db).

Definition near (tolerance x y : Q) : Prop :=
  - tolerance <= x - y <= tolerance.

(** The snapshot of one target as the specification words it, over the
    stored rows of the two windows: the sample count, each uptime and the
    p95 as the displayed number nearest to the specified value, and the
    values of a target without history. *)
Definition snapshot_aggregated (db : database) (now : Z) (r : check_row)
    (item : StatusItem) : Prop :=
  let r24 := window_spec db (c_id r) (now - day_us) in
  let r7 := window_spec db (c_id r) (now - 7 * day_us) in
  url item = c_url r
  /\ total_samples_24h item = len r24
  /\ (has_decimals 2 (uptime_24h item)
      /\ near (1 # 200) (uptime_24h item) (uptime_spec r24))
  /\ (has_decimals 2 (uptime_7d item)
      /\ near (1 # 200) (uptime_7d item) (uptime_spec r7))
  /\ match percentile_spec (success_latencies r24) 95, p95_ms_24h item with
     | Some p, Some q => has_decimals 1 q /\ near (1 # 20) q p
     | None, None => True
     | _, _ => False
     end
  /\ if no_history db r then zero_snapshot item else True.

(** The value the estimator reads at rank [k] of an ascending list, and the
    rank of percentile [p] among [n] samples. *)
Definition interpolate (s : list Q) (k : Q) : Q :=
  let f := Qfloor k in
  let c := Qceiling k in
  if (f =? c)%Z then nth (Z.to_nat f) s 0
  else nth (Z.to_nat f) s 0 * (inject_Z c - k)
       + nth (Z.to_nat c) s 0 * (k - inject_Z f).

Definition rank (n : nat) (p : Q) : Q :=
  inject_Z (Z.of_nat n - 1) * (p / 100).

(** The position of a grade in the list of grades, 0 for the best. *)
Fixpoint index_of (g : string) (l : list string) : nat :=
  match l with
  | [] => 0
  | h :: t => if String.eqb g h then 0 else S (index_of g t)
  end.

Definition grade_rank (g : string) : nat := index_of g grades.

(** Views in ascending order of timestamp. *)
Definition by_ts (a b : result_view) : Prop := (v_ts a <= v_ts b)%Z.

(** A snapshot whose displayed numbers are within half a unit of their
    last decimal of the full-precision values the aggregator computed. *)
Definition snapshot_close (db : database) (now : Z) (r : check_row)
    (item : StatusItem) : Prop :=
  let r24 := select_since db (c_id r) (now - hours_24) in
  let r7 := select_since db (c_id r) (now - days_7) in
  exists up24 up7 p95,
    uptime_of r24 = Ok up24
    /\ uptime_of r7 = Ok up7
    /\ percentile (latencies_of r24) 95 = Ok p95
    /\ - (1 # 200) <= uptime_24h item - up24 <= 1 # 200
    /\ - (1 # 200) <= uptime_7d item - up7 <= 1 # 200
    /\ - (1 # 20) <= score item - fst (score_and_grade up24 p95) <= 1 # 20
    /\ match p95, p95_ms_24h item with
       | Some p, Some q => - (1 # 20) <= q - p <= 1 # 20
       | None, None => True
       | _, _ => False
       end.

Definition snapshot_in_range (item : StatusItem) : Prop :=
  0 <= uptime_24h item <= 100
  /\ 0 <= uptime_7d item <= 100
  /\ 0 <= score item <= 100
  /\ In (grade item) grades
  /\ (0 <= total_samples_24h item)%Z.

(** ** Listing endpoint *)

Definition api_list_checks : M (list check_row) :=
  rows <~ select_all_checks ;;
  for_each rows CheckOut.

(** The identifiers of both tables are 1, 2, ..., in storage order, and the
    counters stand at the last one. *)
Definition ids_sequential (db : database) : Prop :=
  map c_id (checks db) = map Z.of_nat (seq 1 (length (checks db)))
  /\ checks_seq db = len (checks db)
  /\ map r_id (results db) = map Z.of_nat (seq 1 (length (results db)))
  /\ results_seq db = len (results db).

(** [db'] holds every row of [db], unchanged and in place, and possibly
    more after them. *)
Definition extends (db db' : database) : Prop :=
  (exists cs, checks db' = checks db ++ cs)
  /\ (exists rs, results db' = results db ++ rs).

(** ** A round of the scheduler with interleaved probes *)

(** [check_once] from the point where it is suspended in [client.get]:
    [start] has been read, the request settles now. *)
Definition probe_settle (check_id start : Z) (url : string) : M unit :=
  try_except
    (status_code <~ client_get url ;;
     finish <~ now_utc ;;
     let elapsed_ms := elapsed_ms_between start finish in
     let ok := ((200 <=? status_code) && (status_code <? 400))%Z in
     insert_result check_id ok (Some status_code) (Some elapsed_ms) None)
    (fun e =>
       insert_result check_id false None None
                     (Some (str_prefix 300 (str_exn e)))).

(** What the event loop does next during [asyncio.gather]: it starts the
    next task of the list (which runs up to its request), or it resumes the
    running task at position [k], whose request has settled. *)
Inductive event : Type :=
| Start
| Settle (k : nat).

(** The tasks of a round: not yet started, and suspended with their start
    time. *)
Record tasks : Type := mk_tasks {
  waiting : list check_row;
  running : list (check_row * Z)
}.

Fixpoint remove_nth {A : Type} (k : nat) (l : list A) : list A :=
  match k, l with
  | _, [] => []
  | O, _ :: l' => l'
  | S k', a :: l' => a :: remove_nth k' l'
  end.

(** One event; [None] when the event loop cannot take it (nothing left to
    start, no such running task). *)
Definition step_round (ev : event) (t : tasks) : M (option tasks) :=
  match ev with
  | Start =>
    match waiting t with
    | [] => mret None
    | row :: rest =>
      start <~ now_utc ;;
      mret (Some (mk_tasks rest (running t ++ [(row, start)])))
    end
  | Settle k =>
    match nth_error (running t) k with
    | None => mret None
    | Some (row, start) =>
      _ <~ probe_settle (c_id row) start (c_url row) ;;
      mret (Some (mk_tasks (waiting t) (remove_nth k (running t))))
    end
  end.

Fixpoint play (evs : list event) (t : tasks) : M tasks :=
  match evs with
  | [] => mret t
  | ev :: evs' =>
    next <~ step_round ev t ;;
    match next with
    | None => mret t
    | Some t' => play evs' t'
    end
  end.

(** One round of [monitor_loop] under a schedule of events: the registry
    is read once, one task per target is handed to [gather]; the answer
    tells whether every task has settled. *)
Definition gather_round (evs : list event) : M bool :=
  rows <~ select_all_checks ;;
  t <~ play evs (mk_tasks rows []) ;;
  mret (match waiting t, running t with
        | [], [] => true
        | _, _ => false
        end).

(** The schedule that starts every task and then settles them last
    first. *)
Definition schedule_lifo (n : nat) : list event :=
  repeat Start n ++ map Settle (rev (seq 0 n)).

(** The targets the tasks of a round stand for. *)
Definition task_ids (t : tasks) : list Z :=
  map (fun x => c_id (fst x)) (running t) ++ map c_id (waiting t).

(** The schedule that runs the probes one after the other. *)
Definition schedule_sequential (n : nat) : list event :=
  concat (repeat [Start; Settle 0] n).

(** ** The scheduler loop *)

(** A handler of the API served while [monitor_loop] is suspended: its
    answer, or its exception, goes to the client of the request and not to
    the loop. *)
Definition serve {A : Type} (handler : M A) : M unit :=
  fun w => (Ok tt, snd (handler w)).

(** What happens while [monitor_loop] awaits [asyncio.gather]: a probe of
    the round is started or settles, or a registration arrives. *)
Inductive loop_event : Type :=
| Task (ev : event)
| Arrival (u : string).

(** What the loop is observed to do: it reads the registry, a probe starts,
    a probe settles, a registration is served, it calls
    [asyncio.sleep(CHECK_INTERVAL)]. *)
Inductive effect : Type :=
| Snapshot (rows : list check_row)
| Started (check_id : Z)
| Settled (check_id : Z)
| Registered (u : string)
| Slept (seconds : Z).

Definition settled (t : tasks) : bool :=
  match waiting t, running t with
  | [], [] => true
  | _, _ => false
  end.

Definition step_loop (ev : loop_event) (t : tasks)
  : M (option (tasks * effect)) :=
  match ev with
  | Arrival u =>
    _ <~ serve (api_add_check u) ;;
    mret (Some (t, Registered u))
  | Task Start =>
    next <~ step_round Start t ;;
    mret (match next, waiting t with
          | Some t', row :: _ => Some (t', Started (c_id row))
          | _, _ => None
          end)
  | Task (Settle k) =>
    next <~ step_round (Settle k) t ;;
    mret (match next, nth_error (running t) k with
          | Some t', Some (row, _) => Some (t', Settled (c_id row))
          | _, _ => None
          end)
  end.

(** [await asyncio.gather] on the tasks of the round, under a schedule of
    events: it returns as soon as every task has settled, and is still
    waiting when the schedule ends, or names an event that cannot happen,
    before that. *)
Fixpoint gather (evs : list loop_event) (t : tasks)
  : M (tasks * list effect) :=
  if settled t then mret (t, [])
  else
    match evs with
    | [] => mret (t, [])
    | ev :: evs' =>
      next <~ step_loop ev t ;;
      match next with
      | None => mret (t, [])
      | Some (t', e) =>
        r <~ gather evs' t' ;;
        mret (fst r, e :: snd r)
      end
    end.

Fixpoint serve_arrivals (us : list string) : M unit :=
  match us with
  | [] => mret tt
  | u :: us' => _ <~ serve (api_add_check u) ;; serve_arrivals us'
  end.

(** The events of one iteration: those during the [gather], and the
    registrations that arrive during the sleep. *)
Record tick_schedule : Type := mk_schedule {
  during_gather : list loop_event;
  during_sleep : list string
}.

(** One iteration of the [while True] of [monitor_loop]; the flag tells
    whether the iteration came to its end, the sleep included. *)
Definition monitor_loop_body (interval : Z) (s : tick_schedule)
  : M (list effect * bool) :=
  rows <~ select_all_checks ;;
  r <~ match rows with
       | [] => mret (mk_tasks [] [], [])
       | _ :: _ => gather (during_gather s) (mk_tasks rows [])
       end ;;
  if settled (fst r) then
    _ <~ serve_arrivals (during_sleep s) ;;
    mret (Snapshot rows :: snd r
            ++ Slept interval :: map Registered (during_sleep s),
          true)
  else mret (Snapshot rows :: snd r, false).

(** [monitor_loop] along the schedules of its first iterations, with
    [CHECK_INTERVAL] as [interval]; an iteration that is still waiting for
    its probes is the last one. *)
Fixpoint monitor_loop (interval : Z) (ticks : list tick_schedule)
  : M (list effect) :=
  match ticks with
  | [] => mret []
  | s :: ticks' =>
    r <~ monitor_loop_body interval s ;;
    if snd r then
      rest <~ monitor_loop interval ticks' ;;
      mret (fst r ++ rest)
    else mret (fst r)
  end.

(** The identifiers of the probes that settled, in the order of their
    settling, and the URLs of the registrations served. *)
Definition settled_in (tr : list effect) : list Z :=
  flat_map (fun e => match e with Settled id => [id] | _ => [] end) tr.

Definition registered_in (tr : list effect) : list string :=
  flat_map (fun e => match e with Registered u => [u] | _ => [] end) tr.

Definition round_effect (e : effect) : Prop :=
  match e with
  | Started _ | Settled _ | Registered _ => True
  | Snapshot _ | Slept _ => False
  end.

(** What a stretch of a round accounts for, from world [w] with tasks [t]
    to world [w'] with tasks [t'] along the effects [tr]: the registry and
    the results only grow, one result row was written per settled probe,
    and the settled probes with the tasks left make up the tasks it began
    with. *)
Definition round_accounts (w w' : world) (t t' : tasks) (tr : list effect)
  : Prop :=
  exists new late,
    checks (w_db w') = checks (w_db w) ++ late
    /\ results (w_db w') = results (w_db w) ++ new
    /\ (db_ok (w_db w) -> db_ok (w_db w'))
    /\ map r_check_id new = settled_in tr
    /\ Permutation (settled_in tr ++ task_ids t') (task_ids t)
    /\ Forall round_effect tr
    /\ (forall u, In u (registered_in tr) -> In u (urls (w_db w'))).

(** One iteration of the loop as the specification words it, from world
    [w] under schedule [s], followed by the iterations of [ticks]: the
    registry is read whole at the start; one probe per target of that
    snapshot and no other is run, each settled probe writing one result
    row; the sleep, for the configured interval, comes after every probe of
    the snapshot has settled and not before; the targets registered
    meanwhile are not probed, they are in the registry the next iteration
    reads. *)
Definition round_as_specified (interval : Z) (s : tick_schedule)
    (ticks : list tick_schedule) (w : world) : Prop :=
  exists body new late unsettled rest,
    let snap := checks (w_db w) in
    let w' := snd (monitor_loop_body interval s w) in
    let done := match unsettled with [] => true | _ :: _ => false end in
    let tr := Snapshot snap
                :: body ++ (if done
                            then Slept interval
                                   :: map Registered (during_sleep s)
                            else []) in
    fst (monitor_loop_body interval s w) = Ok (tr, done)
    /\ Forall round_effect body
    /\ Permutation (settled_in body ++ unsettled) (map c_id snap)
    /\ results (w_db w') = results (w_db w) ++ new
    /\ map r_check_id new = settled_in body
    /\ checks (w_db w') = snap ++ late
    /\ (forall r, In r late -> ~ In (c_id r) (settled_in body))
    /\ (forall u, In u (registered_in tr) -> In u (urls (w_db w')))
    /\ db_ok (w_db w')
    /\ fst (monitor_loop interval (s :: ticks) w) = Ok (tr ++ rest)
    /\ if done
       then monitor_loop interval ticks w'
            = (Ok rest, snd (monitor_loop interval (s :: ticks) w))
       else rest = [].

(** The probes of a round do not wait for one another: a task that has not
    started can start, and any task whose request is pending can settle
    next, whatever its request ends in and whatever the other tasks do; the
    other tasks are left as they are. *)
Definition probes_independent : Prop :=
  (forall t w row rest,
      waiting t = row :: rest ->
      exists start,
        fst (step_round Start t w)
        = Ok (Some (mk_tasks rest (running t ++ [(row, start)]))))
  /\ (forall t w k row start,
         nth_error (running t) k = Some (row, start) ->
         fst (step_round (Settle k) t w)
         = Ok (Some (mk_tasks (waiting t) (remove_nth k (running t))))
         /\ exists new,
             results (w_db (snd (step_round (Settle k) t w)))
             = results (w_db w) ++ [new]
             /\ r_check_id new = c_id row).

(** Three targets, the second of which hangs until the client gives up. *)
Definition http_one_hung (_ : nat) (u : string) : http_outcome :=
  if String.eqb u "https://hung.example/" then Failed "ReadTimeout"
  else Responded 200.

Definition hung_history : list request :=
  [Register "https://a.example/"; Register "https://hung.example/";
   Register "https://b.example/"].

Definition hung_world : world :=
  run hung_history (initial clock_ms http_one_hung short_url).

(** The two fast probes settle first, a registration arrives, the hung
    probe settles last; one more registration arrives during the sleep. *)
Definition hung_schedule : tick_schedule :=
  mk_schedule
    [Task Start; Task Start; Task Start; Task (Settle 0); Task (Settle 1);
     Arrival "https://late.example/"; Task (Settle 0)]
    ["https://later.example/"%string].

Definition next_schedule : tick_schedule :=
  mk_schedule (map Task (schedule_lifo 5)) [].

(** ** Time *)

Definition clock_monotone (clock : nat -> Z) : Prop :=
  forall n, (clock n <= clock (S n))%Z.

Definition by_row_ts (a b : result_row) : Prop := (r_ts a <= r_ts b)%Z.

Definition latency_nonneg (r : result_row) : Prop :=
  match r_elapsed_ms r with
  | Some e => 0 <= e
  | None => True
  end.

(** The clock never goes back, the stored results are in ascending order of
    timestamp, none is later than the readings still to come, and no
    latency is negative. *)
Definition time_ok (w : world) : Prop :=
  clock_monotone (w_clock w)
  /\ StronglySorted by_row_ts (results (w_db w))
  /\ Forall (fun r => forall n, (w_steps w <= S n)%nat ->
                                (r_ts r <= w_clock w n)%Z)
            (results (w_db w))
  /\ Forall latency_nonneg (results (w_db w)).

Definition flags_valid (rows : list result_view) : Prop :=
  Forall (fun v => v_ok v = 0%Z \/ v_ok v = 1%Z) rows.

(** * Proofs *)

(** ** Comparison helpers *)

Lemma Qle_bool_true (a b : Q) : Qle_bool a b = true -> a <= b.
Proof. apply Qle_bool_iff. Qed.

Lemma Qle_bool_false (a b : Q) : Qle_bool a b = false -> b < a.
Proof.
  intros H. apply Qnot_le_lt. intros Hle.
  apply Qle_bool_iff in Hle. congruence.
Qed.

Lemma Qlt_bool_true (a b : Q) : Qlt_bool a b = true -> a < b.
Proof.
  unfold Qlt_bool. intros H. apply negb_true_iff in H.
  now apply Qle_bool_false.
Qed.

Lemma Qlt_bool_false (a b : Q) : Qlt_bool a b = false -> b <= a.
Proof.
  unfold Qlt_bool. intros H. apply negb_false_iff in H.
  now apply Qle_bool_true.
Qed.

(** Split on every comparison of the goal, innermost first, and keep the
    facts. *)
Ltac no_branch t :=
  lazymatch t with
  | context [if _ then _ else _] => fail
  | _ => idtac
  end.

Ltac qcases :=
  repeat match goal with
  | |- context [Qle_bool ?a ?b] =>
      no_branch a; no_branch b;
      let E := fresh "E" in
      destruct (Qle_bool a b) eqn:E;
      [apply Qle_bool_true in E | apply Qle_bool_false in E]
  | |- context [Qlt_bool ?a ?b] =>
      no_branch a; no_branch b;
      let E := fresh "E" in
      destruct (Qlt_bool a b) eqn:E;
      [apply Qlt_bool_true in E | apply Qlt_bool_false in E]
  end.

(** ** Scorer: range of the parts *)

Lemma clamp_range (u : Q) : 0 <= py_max 0 (py_min 100 u) <= 100.
Proof. unfold py_max, py_min. qcases; lra. Qed.

Lemma clamp_mono (u1 u2 : Q) :
  u1 <= u2 -> py_max 0 (py_min 100 u1) <= py_max 0 (py_min 100 u2).
Proof. intros H. unfold py_max, py_min. qcases; lra. Qed.

Lemma latency_linear (p : Q) :
  100 * (3000 - p) / (3000 - 300) == (1 # 27) * (3000 - p).
Proof. field. Qed.

Lemma latency_score_range (p : option Q) : 0 <= latency_score_of p <= 100.
Proof.
  destruct p as [p|]; simpl; [|lra].
  qcases; rewrite ?latency_linear; lra.
Qed.

Lemma latency_score_anti (p1 p2 : Q) :
  p1 <= p2 -> latency_score_of (Some p2) <= latency_score_of (Some p1).
Proof.
  intros H. simpl. qcases; rewrite ?latency_linear; lra.
Qed.

Lemma grade_of_in_grades (s : Q) : In (grade_of s) grades.
Proof.
  unfold grade_of, grades.
  repeat match goal with
  | |- context [Qle_bool ?a ?b] => destruct (Qle_bool a b)
  end; simpl; tauto.
Qed.

(** ** Scorer: the claims *)

(** C4. The documented point values of the Scorer: [score(100, 300)] is
    100.0 with grade "A+", [score(0, None)] is 0.0 with grade "F",
    [score(95, 3000)] is 66.5 with grade "D"; the grade thresholds are closed
    at the lower edge: a score of exactly 97.0 is graded "A+" and 96.99 is
    graded "A", both as values of the grading chain and as scores the Scorer
    reaches (at uptime 100 with p95 570, and at uptime 95.7 with p95 300).
    The same values come out in exact arithmetic and on binary64 floats.
    Every threshold is closed at its lower edge: in exact arithmetic each of
    the eleven grades is given exactly on its interval, [97, oo) for "A+",
    [93, 97) for "A", [90, 93) for "A-", [87, 90) for "B+", [83, 87) for
    "B", [80, 83) for "B-", [77, 80) for "C+", [73, 77) for "C", [70, 73)
    for "C-", [60, 70) for "D" and below 60 for "F"; on binary64 floats
    each of the ten thresholds gets the grade it opens and the float just
    below it the next lower grade. *)
Theorem score_and_grade_points :
  ((fst (score_and_grade 100 (Some 300)) == 100
    /\ snd (score_and_grade 100 (Some 300)) = "A+"%string)
   /\ (fst (score_and_grade 0 None) == 0
       /\ snd (score_and_grade 0 None) = "F"%string)
   /\ (fst (score_and_grade 95 (Some 3000)) == 665 # 10
       /\ snd (score_and_grade 95 (Some 3000)) = "D"%string)
   /\ grade_of 97 = "A+"%string
   /\ grade_of (9699 # 100) = "A"%string
   /\ (fst (score_and_grade 100 (Some 570)) == 97
       /\ snd (score_and_grade 100 (Some 570)) = "A+"%string)
   /\ (fst (score_and_grade (957 # 10) (Some 300)) == 9699 # 100
       /\ snd (score_and_grade (957 # 10) (Some 300)) = "A"%string)
   /\ (forall s : Q,
       (grade_of s = "A+"%string <-> 97 <= s)
       /\ (grade_of s = "A"%string <-> 93 <= s /\ s < 97)
       /\ (grade_of s = "A-"%string <-> 90 <= s /\ s < 93)
       /\ (grade_of s = "B+"%string <-> 87 <= s /\ s < 90)
       /\ (grade_of s = "B"%string <-> 83 <= s /\ s < 87)
       /\ (grade_of s = "B-"%string <-> 80 <= s /\ s < 83)
       /\ (grade_of s = "C+"%string <-> 77 <= s /\ s < 80)
       /\ (grade_of s = "C"%string <-> 73 <= s /\ s < 77)
       /\ (grade_of s = "C-"%string <-> 70 <= s /\ s < 73)
       /\ (grade_of s = "D"%string <-> 60 <= s /\ s < 70)
       /\ (grade_of s = "F"%string <-> s < 60)))
  /\ (Binary64.score_and_grade 100 (Some 300%float) = (100%float, "A+"%string)
      /\ Binary64.score_and_grade 0 None = (0%float, "F"%string)
      /\ Binary64.score_and_grade 95 (Some 3000%float)
         = (66.5%float, "D"%string)
      /\ Binary64.grade_of 97 = "A+"%string
      /\ Binary64.grade_of 96.99 = "A"%string
      /\ Binary64.score_and_grade 100 (Some 570%float)
         = (97%float, "A+"%string)
      /\ Binary64.score_and_grade 95.7 (Some 300%float)
         = (96.99%float, "A"%string)
      /\ (Binary64.grade_of 97 = "A+"%string
          /\ Binary64.grade_of (PrimFloat.next_down 97) = "A"%string)
      /\ (Binary64.grade_of 93 = "A"%string
          /\ Binary64.grade_of (PrimFloat.next_down 93) = "A-"%string)
      /\ (Binary64.grade_of 90 = "A-"%string
          /\ Binary64.grade_of (PrimFloat.next_down 90) = "B+"%string)
      /\ (Binary64.grade_of 87 = "B+"%string
          /\ Binary64.grade_of (PrimFloat.next_down 87) = "B"%string)
      /\ (Binary64.grade_of 83 = "B"%string
          /\ Binary64.grade_of (PrimFloat.next_down 83) = "B-"%string)
      /\ (Binary64.grade_of 80 = "B-"%string
          /\ Binary64.grade_of (PrimFloat.next_down 80) = "C+"%string)
      /\ (Binary64.grade_of 77 = "C+"%string
          /\ Binary64.grade_of (PrimFloat.next_down 77) = "C"%string)
      /\ (Binary64.grade_of 73 = "C"%string
          /\ Binary64.grade_of (PrimFloat.next_down 73) = "C-"%string)
      /\ (Binary64.grade_of 70 = "C-"%string
          /\ Binary64.grade_of (PrimFloat.next_down 70) = "D"%string)
      /\ (Binary64.grade_of 60 = "D"%string
          /\ Binary64.grade_of (PrimFloat.next_down 60) = "F"%string)).
Proof.
  split.
  - do 7 (split; [repeat split; vm_compute; reflexivity|]).
    intros s. unfold grade_of.
    qcases;
      repeat split; intros; try discriminate; try reflexivity;
      repeat match goal with H : _ /\ _ |- _ => destruct H end;
      try reflexivity; try lra.
  - repeat split; vm_compute; reflexivity.
Qed.

(** C5. The Scorer is monotone: with the optional p95 latency fixed the
    score does not decrease when the uptime percentage grows, and with the
    uptime fixed the score does not increase when the p95 latency grows. *)
Theorem score_monotone (p95 : option Q) (u u1 u2 p1 p2 : Q) :
  u1 <= u2 -> p1 <= p2 ->
  fst (score_and_grade u1 p95) <= fst (score_and_grade u2 p95)
  /\ fst (score_and_grade u (Some p2)) <= fst (score_and_grade u (Some p1)).
Proof.
  intros Hu Hp. unfold score_and_grade; cbn [fst]. split.
  - pose proof (clamp_mono u1 u2 Hu). lra.
  - pose proof (latency_score_anti p1 p2 Hp). lra.
Qed.

Lemma score_monotone_witness :
  fst (score_and_grade 50 (Some 500)) <= fst (score_and_grade 90 (Some 500))
  /\ fst (score_and_grade 80 (Some 2000)) <= fst (score_and_grade 80 (Some 400)).
Proof.
  apply (score_monotone (Some 500) 80 50 90 400 2000); lra.
Defined.

(** C10. For every uptime input, also outside [0,100], and every optional
    p95 input, also negative, the score lies in [0,100] and the grade is one
    of the eleven letters. *)
Theorem score_and_grade_range (uptime_pct : Q) (p95_ms : option Q) :
  0 <= fst (score_and_grade uptime_pct p95_ms) <= 100
  /\ In (snd (score_and_grade uptime_pct p95_ms)) grades.
Proof.
  unfold score_and_grade; cbn [fst snd]. split.
  - pose proof (clamp_range uptime_pct).
    pose proof (latency_score_range p95_ms). lra.
  - apply grade_of_in_grades.
Qed.

(** ** Percentile Estimator: sorting and indexing *)

Lemma insert_sorted_length (x : Q) (l : list Q) :
  length (insert_sorted x l) = S (length l).
Proof.
  induction l as [|y l IH]; simpl; [reflexivity|].
  destruct (Qle_bool x y); simpl; [reflexivity | now rewrite IH].
Qed.

Lemma sorted_length (l : list Q) : length (sorted l) = length l.
Proof.
  induction l as [|x l IH]; simpl; [reflexivity|].
  now rewrite insert_sorted_length, IH.
Qed.

Lemma insert_sorted_In (x y : Q) (l : list Q) :
  In y (insert_sorted x l) <-> y = x \/ In y l.
Proof.
  induction l as [|z l IH]; simpl; [intuition|].
  destruct (Qle_bool x z); simpl; [intuition | rewrite IH; intuition].
Qed.

Lemma sorted_In (y : Q) (l : list Q) : In y (sorted l) <-> In y l.
Proof.
  induction l as [|x l IH]; simpl; [reflexivity|].
  rewrite insert_sorted_In, IH. intuition.
Qed.

Lemma insert_sorted_ascending (x : Q) (l : list Q) :
  ascending l -> ascending (insert_sorted x l).
Proof.
  induction 1 as [|z l Hz Hl IH]; simpl.
  - constructor; [intros y []|constructor].
  - destruct (Qle_bool x z) eqn:E.
    + apply Qle_bool_true in E. constructor.
      * intros y [<-|Hy]; [exact E|]. apply Qle_trans with z; auto.
      * now constructor.
    + apply Qle_bool_false in E. constructor; [|exact IH].
      intros y Hy. apply insert_sorted_In in Hy as [->|Hy]; [lra|auto].
Qed.

Lemma sorted_ascending (l : list Q) : ascending (sorted l).
Proof.
  induction l; simpl; [constructor | now apply insert_sorted_ascending].
Qed.

Lemma ascending_nth (l : list Q) (d : Q) :
  ascending l ->
  forall i j, (i <= j < length l)%nat -> nth i l d <= nth j l d.
Proof.
  induction 1 as [|x l Hx Hl IH]; intros i j Hij; simpl in *; [lia|].
  destruct i as [|i], j as [|j]; try lia.
  - lra.
  - apply Hx, nth_In. lia.
  - apply IH. lia.
Qed.

Lemma py_getitem_in_range {A : Type} (l : list A) (i : Z) (d : A) :
  (0 <= i < Z.of_nat (length l))%Z ->
  py_getitem l i = Ok (nth (Z.to_nat i) l d).
Proof.
  intros H. unfold py_getitem.
  destruct (i <? 0)%Z eqn:E1; [lia|].
  destruct ((i <? 0) || (Z.of_nat (length l) <=? i))%Z eqn:E2; [lia|].
  destruct (nth_error l (Z.to_nat i)) eqn:E3.
  - now rewrite (nth_error_nth _ _ d E3).
  - apply nth_error_None in E3. lia.
Qed.

(** ** Percentile Estimator: the rank and its neighbours *)

Lemma rank_range (n : nat) (p : Q) :
  (1 <= n)%nat -> 0 <= p <= 100 ->
  0 <= inject_Z (Z.of_nat n - 1) * (p / 100) <= inject_Z (Z.of_nat n - 1).
Proof.
  intros Hn Hp.
  assert (Ha : 0 <= inject_Z (Z.of_nat n - 1)).
  { change 0 with (inject_Z 0). rewrite <- Zle_Qle. lia. }
  assert (Hq : p / 100 == p * (1 # 100)) by field.
  rewrite Hq. nra.
Qed.

Lemma floor_ceiling_range (k : Q) (m : Z) :
  0 <= k <= inject_Z m ->
  (0 <= Qfloor k <= Qceiling k)%Z /\ (Qceiling k <= m)%Z.
Proof.
  intros [H0 Hm]. repeat split.
  - change 0%Z with (Qfloor 0). now apply Qfloor_resp_le.
  - rewrite Zle_Qle.
    apply Qle_trans with k; [apply Qfloor_le | apply Qle_ceiling].
  - rewrite <- (Qceiling_Z m). now apply Qceiling_resp_le.
Qed.

Lemma py_int_nonneg (k : Q) : 0 <= k -> py_int k = Qfloor k.
Proof.
  intros H. unfold py_int.
  apply Qle_bool_iff in H. now rewrite H.
Qed.

(** On a non-empty list and a percentile of [0,100] no index is out of
    range, and the estimator returns the interpolation between the two
    neighbours of the rank. *)
Lemma percentile_in_range (values : list Q) (p : Q) :
  values <> [] -> 0 <= p <= 100 ->
  let s := sorted values in
  let k := inject_Z (Z.of_nat (length s) - 1) * (p / 100) in
  let f := Qfloor k in
  let c := Qceiling k in
  percentile values p =
  Ok (Some (if (f =? c)%Z then nth (Z.to_nat f) s 0
            else nth (Z.to_nat f) s 0 * (inject_Z c - k)
                 + nth (Z.to_nat c) s 0 * (k - inject_Z f))).
Proof.
  intros Hne Hp s k f c.
  destruct values as [|x l]; [congruence|].
  assert (Hn : (1 <= length s)%nat).
  { subst s. rewrite sorted_length. simpl. lia. }
  pose proof (rank_range (length s) p Hn Hp) as Hk. fold k in Hk.
  destruct (floor_ceiling_range k _ Hk) as [Hfc Hc]. fold f c in Hfc, Hc.
  unfold percentile. fold s k f c.
  destruct (f =? c)%Z eqn:E.
  - rewrite py_int_nonneg by apply Hk. fold f.
    rewrite (py_getitem_in_range s f 0) by lia. reflexivity.
  - rewrite (py_getitem_in_range s f 0) by lia.
    rewrite (py_getitem_in_range s c 0) by lia. reflexivity.
Qed.

Lemma percentile_at_integral_rank (values : list Q) (p : Q) (i : Z) :
  values <> [] -> 0 <= p <= 100 ->
  inject_Z (Z.of_nat (length values) - 1) * (p / 100) == inject_Z i ->
  percentile values p = Ok (Some (nth (Z.to_nat i) (sorted values) 0)).
Proof.
  intros Hne Hp Hi.
  rewrite (percentile_in_range values p Hne Hp). cbv zeta.
  rewrite sorted_length.
  rewrite (Qfloor_comp _ _ Hi), (Qceiling_comp _ _ Hi), Qfloor_Z, Qceiling_Z.
  now rewrite Z.eqb_refl.
Qed.

(** ** Extremes of a list *)

Lemma fold_py_min_spec (l : list Q) (x : Q) :
  In (fold_left py_min l x) (x :: l)
  /\ forall y, In y (x :: l) -> fold_left py_min l x <= y.
Proof.
  revert x. induction l as [|z l IH]; intros x; simpl.
  - split; [now left | intros y [<-|[]]; lra].
  - destruct (IH (py_min x z)) as [Hin Hle]. split.
    + destruct Hin as [Hin|Hin]; [|now right; right].
      rewrite <- Hin. unfold py_min. destruct (Qlt_bool z x); auto.
    + assert (Hx : py_min x z <= x /\ py_min x z <= z).
      { unfold py_min. qcases; lra. }
      pose proof (Hle _ (or_introl eq_refl)) as Hm.
      intros y [<-|[<-|Hy]]; [lra | lra | apply Hle; now right].
Qed.

Lemma fold_py_max_spec (l : list Q) (x : Q) :
  In (fold_left py_max l x) (x :: l)
  /\ forall y, In y (x :: l) -> y <= fold_left py_max l x.
Proof.
  revert x. induction l as [|z l IH]; intros x; simpl.
  - split; [now left | intros y [<-|[]]; lra].
  - destruct (IH (py_max x z)) as [Hin Hle]. split.
    + destruct Hin as [Hin|Hin]; [|now right; right].
      rewrite <- Hin. unfold py_max. destruct (Qlt_bool x z); auto.
    + assert (Hx : x <= py_max x z /\ z <= py_max x z).
      { unfold py_max. qcases; lra. }
      pose proof (Hle _ (or_introl eq_refl)) as Hm.
      intros y [<-|[<-|Hy]]; [lra | lra | apply Hle; now right].
Qed.

Lemma sorted_first_is_min (x : Q) (l : list Q) :
  nth 0 (sorted (x :: l)) 0 == fold_left py_min l x.
Proof.
  set (s := sorted (x :: l)).
  assert (Hlen : (0 < length s)%nat).
  { subst s. rewrite sorted_length. simpl. lia. }
  destruct (fold_py_min_spec l x) as [Hin Hle].
  apply Qle_antisym.
  - apply (proj2 (sorted_In _ _)) in Hin. fold s in Hin.
    apply (In_nth _ _ 0) in Hin as (i & Hi & Heq). rewrite <- Heq.
    apply ascending_nth; [apply sorted_ascending | lia].
  - apply Hle. apply (sorted_In _ (x :: l)). apply nth_In. exact Hlen.
Qed.

Lemma sorted_last_is_max (x : Q) (l : list Q) :
  nth (length l) (sorted (x :: l)) 0 == fold_left py_max l x.
Proof.
  set (s := sorted (x :: l)).
  assert (Hlen : length s = S (length l)).
  { subst s. rewrite sorted_length. reflexivity. }
  destruct (fold_py_max_spec l x) as [Hin Hle].
  apply Qle_antisym.
  - apply Hle. apply (sorted_In _ (x :: l)). apply nth_In. fold s. lia.
  - apply (proj2 (sorted_In _ _)) in Hin. fold s in Hin.
    apply (In_nth _ _ 0) in Hin as (i & Hi & Heq). rewrite <- Heq.
    apply ascending_nth; [apply sorted_ascending | fold s; lia].
Qed.

(** ** Percentile Estimator: the claim *)

Lemma rank_spec_eq (n : nat) (p : Q) :
  inject_Z (Z.of_nat n - 1) * (p / 100) == inject_Z (Z.of_nat n - 1) * p / 100.
Proof. field. Qed.

(** C3. On a non-empty sample list and a percentile [p] of [0,100] the
    estimator returns a value, the one the specified algorithm gives (sort
    ascending, [k = (n-1)*p/100], [sorted[k]] when floor and ceiling of [k]
    agree, the weighted sum of the two neighbours otherwise); at [p = 0]
    that value is the minimum and at [p = 100] the maximum of the samples;
    on the empty list the estimator returns [None], not an error, for every
    percentile. *)
Theorem percentile_correct (values : list Q) (p : Q) :
  values <> [] -> 0 <= p <= 100 ->
  (exists v w, percentile values p = Ok (Some v)
               /\ percentile_spec values p = Some w /\ v == w)
  /\ (exists v m, percentile values 0 = Ok (Some v)
                  /\ list_min values = Some m /\ v == m)
  /\ (exists v m, percentile values 100 = Ok (Some v)
                  /\ list_max values = Some m /\ v == m)
  /\ (forall q, percentile [] q = Ok None).
Proof.
  intros Hne Hp. repeat split.
  - eexists; eexists. split; [apply (percentile_in_range values p Hne Hp)|].
    destruct values as [|x l]; [congruence|].
    split; [reflexivity|]. cbv zeta.
    rewrite sorted_length.
    pose proof (rank_spec_eq (length (x :: l)) p) as Hk.
    rewrite <- (Qfloor_comp _ _ Hk), <- (Qceiling_comp _ _ Hk).
    destruct (_ =? _)%Z; [reflexivity|].
    generalize (Qfloor (inject_Z (Z.of_nat (length (x :: l)) - 1) * (p / 100))).
    generalize (Qceiling (inject_Z (Z.of_nat (length (x :: l)) - 1) * (p / 100))).
    intros c f. now rewrite Hk.
  - destruct values as [|x l]; [congruence|].
    exists (nth 0 (sorted (x :: l)) 0), (fold_left py_min l x).
    split; [|split; [reflexivity | apply sorted_first_is_min]].
    apply (percentile_at_integral_rank (x :: l) 0 0 Hne); [lra|].
    change (inject_Z 0) with 0. field.
  - destruct values as [|x l]; [congruence|].
    exists (nth (length l) (sorted (x :: l)) 0), (fold_left py_max l x).
    split; [|split; [reflexivity | apply sorted_last_is_max]].
    rewrite <- (Nat2Z.id (length l)) at 1.
    apply (percentile_at_integral_rank (x :: l) 100 _ Hne); [lra|].
    replace (Z.of_nat (length (x :: l)) - 1)%Z with (Z.of_nat (length l))
      by (simpl length; lia).
    field.
Qed.

Lemma percentile_correct_witness :
  (exists v w, percentile [30; 10; 20] 95 = Ok (Some v)
               /\ percentile_spec [30; 10; 20] 95 = Some w /\ v == w)
  /\ (exists v m, percentile [30; 10; 20] 0 = Ok (Some v)
                  /\ list_min [30; 10; 20] = Some m /\ v == m)
  /\ (exists v m, percentile [30; 10; 20] 100 = Ok (Some v)
                  /\ list_max [30; 10; 20] = Some m /\ v == m)
  /\ (forall q, percentile [] q = Ok None).
Proof.
  apply (percentile_correct [30; 10; 20] 95); [discriminate | lra].
Defined.

(** The estimator on concrete samples: the median of three, an
    interpolated p95, and the two out-of-domain behaviours of the source
    (a negative percentile wraps around the list, one above 100 raises). *)
Example percentile_examples :
  percentile [30; 10; 20] 50 = Ok (Some 20)
  /\ (exists v, percentile [30; 10; 20] 95 = Ok (Some v) /\ v == 29)
  /\ (exists v, percentile [30; 10; 20] (-10) = Ok (Some v) /\ v == 14)
  /\ percentile [30; 10; 20] 110 = Raise IndexError.
Proof.
  repeat split; try reflexivity; eexists; (split; [reflexivity|]);
    vm_compute; reflexivity.
Qed.

(** ** Probe Executor: what one invocation does *)

Lemma str_prefix_length (n : nat) (s : string) :
  (String.length (str_prefix n s) <= n)%nat.
Proof.
  revert s. induction n as [|n IH]; intros [|c s]; simpl; try lia.
  specialize (IH s). lia.
Qed.

Lemma str_prefix_is_prefix (n : nat) (s : string) :
  String.prefix (str_prefix n s) s = true.
Proof.
  revert s. induction n as [|n IH]; intros [|c s]; simpl; try reflexivity.
  destruct (ascii_dec c c); [apply IH | congruence].
Qed.

Lemma str_prefix_short (n : nat) (s : string) :
  (String.length s <= n)%nat -> str_prefix n s = s.
Proof.
  revert s. induction n as [|n IH]; intros [|c s]; simpl; try reflexivity.
  - lia.
  - intros H. f_equal. apply IH. lia.
Qed.

Lemma check_once_run (w : world) (check_id : Z) (url : string) :
  fst (check_once check_id url w) = Ok tt
  /\ w_db (snd (check_once check_id url w)) =
     mk_db (checks (w_db w)) (checks_seq (w_db w))
           (results (w_db w) ++ [probe_row w check_id url])
           (results_seq (w_db w) + 1)%Z
  /\ w_clock (snd (check_once check_id url w)) = w_clock w
  /\ w_http (snd (check_once check_id url w)) = w_http w.
Proof.
  unfold check_once, try_except, mbind, now_utc, client_get, insert_result,
    execute_insert_result, probe_row, advance, with_db; simpl.
  destruct (w_http w (S (w_steps w)) url) as [status_code|msg]; simpl.
  - destruct ((200 <=? status_code) && (status_code <? 400))%Z; simpl;
      repeat split; reflexivity.
  - repeat split; reflexivity.
Qed.

Lemma check_once_appends (w : world) (check_id : Z) (url : string) :
  fst (check_once check_id url w) = Ok tt
  /\ (exists row,
        results (w_db (snd (check_once check_id url w)))
        = results (w_db w) ++ [row]
        /\ r_check_id row = check_id)
  /\ checks (w_db (snd (check_once check_id url w))) = checks (w_db w).
Proof.
  destruct (check_once_run w check_id url) as (Hok & Hdb & _).
  rewrite Hdb. cbn [results checks]. repeat split; [exact Hok|].
  exists (probe_row w check_id url). split; [reflexivity|].
  unfold probe_row. now destruct (w_http w (S (w_steps w)) url).
Qed.

(** C1, as the code has it. Every invocation appends one row for its
    target. A completed response is recorded with its status code and the
    elapsed milliseconds and without an error text, as a success when the
    status is in [200, 400) and as a failure otherwise; a request that raises
    (connection failure, timeout, DNS or protocol error) is recorded as a
    failure with the first 300 characters of the message, without latency
    and without status code. *)
Theorem check_once_record (w : world) (check_id : Z) (url : string) :
  exists row,
    results (w_db (snd (check_once check_id url w))) = results (w_db w) ++ [row]
    /\ r_check_id row = check_id
    /\ match w_http w (S (w_steps w)) url with
       | Responded status_code =>
         r_ok row = (if ((200 <=? status_code) && (status_code <? 400))%Z
                     then 1 else 0)%Z
         /\ r_status_code row = Some status_code
         /\ r_elapsed_ms row =
            Some (elapsed_ms_between (w_clock w (w_steps w))
                                     (w_clock w (S (S (w_steps w)))))
         /\ r_error row = None
       | Failed msg =>
         failure_record_as_specified row
         /\ r_error row = Some (str_prefix 300 msg)
         /\ String.prefix (str_prefix 300 msg) msg = true
       end.
Proof.
  destruct (check_once_run w check_id url) as (_ & Hdb & _).
  exists (probe_row w check_id url). rewrite Hdb. cbn [results].
  split; [reflexivity|]. unfold probe_row.
  destruct (w_http w (S (w_steps w)) url) as [status_code|msg];
    unfold failure_record_as_specified;
    cbn [r_check_id r_ok r_status_code r_elapsed_ms r_error].
  - repeat split; reflexivity.
  - repeat split; try reflexivity; [|apply str_prefix_is_prefix].
    eexists; split; [reflexivity | apply str_prefix_length].
Qed.

(** C1, as stated, fails on a completed response outside [200, 400): the
    row written for a 500 carries the status code and a latency and no error
    text. *)
Lemma check_once_status_500 :
  exists row,
    results (w_db (snd (check_once 1 "https://example.org/"
                                   (initial clock_ms http_500 short_url)))) = [row]
    /\ r_ok row = 0%Z
    /\ r_status_code row = Some 500%Z
    /\ r_elapsed_ms row = Some (elapsed_ms_between 1000000000000 1000000003000)
    /\ r_error row = None
    /\ ~ failure_record_as_specified row.
Proof.
  eexists. split; [reflexivity|]. cbn.
  repeat split; try reflexivity.
  intros (_ & (d & Hd & _) & _). discriminate Hd.
Qed.

(** One probe against a healthy, a failing and an unreachable server. *)
Example check_once_examples :
  map (fun r => (r_ok r, r_status_code r, r_error r))
      (results (w_db (snd (check_once 7 "u" (initial clock_ms http_200 short_url)))))
  = [(1%Z, Some 200%Z, None)]
  /\ map (fun r => (r_ok r, r_status_code r, r_error r))
         (results (w_db (snd (check_once 7 "u" (initial clock_ms http_500 short_url)))))
     = [(0%Z, Some 500%Z, None)]
  /\ map (fun r => (r_ok r, r_status_code r, r_elapsed_ms r, r_error r))
         (results (w_db (snd (check_once 7 "u" (initial clock_ms http_down short_url)))))
     = [(0%Z, None, None, Some "All connection attempts failed"%string)].
Proof. repeat split; reflexivity. Qed.

(** C2. An invocation never raises: whatever the request does, [check_once]
    returns normally, and it writes exactly one row: the results table grows
    by one row, of the probed target, and the registry is untouched. *)
Theorem check_once_never_raises (w : world) (check_id : Z) (url : string) :
  fst (check_once check_id url w) = Ok tt
  /\ (exists row,
        results (w_db (snd (check_once check_id url w)))
        = results (w_db w) ++ [row]
        /\ r_check_id row = check_id)
  /\ length (results (w_db (snd (check_once check_id url w))))
     = S (length (results (w_db w)))
  /\ checks (w_db (snd (check_once check_id url w))) = checks (w_db w).
Proof.
  destruct (check_once_appends w check_id url)
    as (Hok & (row & Hrow & Hid) & Hchecks).
  repeat split.
  - exact Hok.
  - now exists row.
  - rewrite Hrow, length_app. cbn [length]. lia.
  - exact Hchecks.
Qed.

(** ** Target Registry: registration *)

Lemma known_In (db : database) (u : string) :
  known db u = true <-> In u (urls db).
Proof.
  unfold known, urls. rewrite existsb_exists, in_map_iff.
  split; intros (r & H1 & H2); exists r.
  - apply String.eqb_eq in H2. auto.
  - split; [exact H2 | now apply String.eqb_eq].
Qed.

Lemma known_find (db : database) (u : string) :
  known db u = true ->
  exists row, find (fun r => String.eqb (c_url r) u) (checks db) = Some row
              /\ In row (checks db) /\ c_url row = u.
Proof.
  unfold known. intros H.
  destruct (find _ (checks db)) as [row|] eqn:E.
  - exists row. apply find_some in E as [Hin Hu].
    apply String.eqb_eq in Hu. auto.
  - apply existsb_exists in H as (r & Hin & Hr).
    rewrite (find_none _ _ E r Hin) in Hr. discriminate.
Qed.

Lemma insert_check_known (w : world) (u : string) :
  known (w_db w) u = true ->
  exists row, In row (checks (w_db w)) /\ c_url row = u
              /\ insert_check u w = (Ok (c_id row), advance w).
Proof.
  intros H. destruct (known_find _ _ H) as (row & Hf & Hin & Hu).
  exists row. repeat split; auto.
  unfold insert_check, try_except, mbind, now_utc, execute_insert_check,
    select_id_by_url, get_db, mret; simpl.
  unfold known in H. rewrite H. simpl. now rewrite Hf.
Qed.

Lemma insert_check_new (w : world) (u : string) :
  known (w_db w) u = false ->
  insert_check u w =
  (Ok (checks_seq (w_db w) + 1)%Z,
   with_db (advance w)
     (mk_db (checks (w_db w) ++
             [mk_check (checks_seq (w_db w) + 1) u (w_clock w (w_steps w))])
            (checks_seq (w_db w) + 1)
            (results (w_db w)) (results_seq (w_db w)))).
Proof.
  intros H.
  unfold insert_check, try_except, mbind, now_utc, execute_insert_check,
    mret; simpl.
  unfold known in H. now rewrite H.
Qed.

Lemma insert_check_db_ok (w : world) (u : string) :
  db_ok (w_db w) -> db_ok (w_db (snd (insert_check u w))).
Proof.
  intros (Hu & Hseq & Hid & Hnd & Hr).
  destruct (known (w_db w) u) eqn:E.
  - destruct (insert_check_known w u E) as (row & _ & _ & ->).
    repeat split; assumption.
  - rewrite (insert_check_new w u E). unfold db_ok, urls; cbn.
    rewrite !map_app; cbn. repeat split.
    + apply NoDup_app; [exact Hu | repeat constructor; intros [] |].
      intros a Ha [<-|[]].
      apply known_In in Ha. congruence.
    + lia.
    + apply Forall_app. split.
      * eapply Forall_impl; [|exact Hid]. cbn. intros; lia.
      * repeat constructor; cbn; lia.
    + apply NoDup_app; [exact Hnd | repeat constructor; intros [] |].
      intros a Ha [<-|[]].
      apply in_map_iff in Ha as (r & Hr1 & Hr2).
      rewrite Forall_forall in Hid. specialize (Hid r Hr2). lia.
    + exact Hr.
Qed.

(** ** Status Aggregator: the windowed reads *)

Lemma insert_by_ts_perm (x : result_view) (l : list result_view) :
  Permutation (insert_by_ts x l) (x :: l).
Proof.
  induction l as [|y l IH]; simpl; [reflexivity|].
  destruct (v_ts x <=? v_ts y)%Z; [reflexivity|].
  rewrite IH. apply perm_swap.
Qed.

Lemma order_by_ts_perm (l : list result_view) :
  Permutation (order_by_ts l) l.
Proof.
  induction l as [|x l IH]; simpl; [reflexivity|].
  rewrite insert_by_ts_perm. now constructor.
Qed.

Lemma sum_ok_from (rows : list result_view) (acc : Z) :
  fold_left (fun a rr => (a + v_ok rr)%Z) rows acc = (acc + sum_ok rows)%Z.
Proof.
  unfold sum_ok. revert acc.
  induction rows as [|x l IH]; intros acc; simpl; [lia|].
  rewrite IH, (IH (v_ok x)). lia.
Qed.

Lemma sum_ok_cons (x : result_view) (l : list result_view) :
  sum_ok (x :: l) = (v_ok x + sum_ok l)%Z.
Proof. unfold sum_ok at 1. simpl. apply sum_ok_from. Qed.

Lemma sum_ok_perm (l l' : list result_view) :
  Permutation l l' -> sum_ok l = sum_ok l'.
Proof.
  induction 1; rewrite ?sum_ok_cons; try lia; congruence.
Qed.

Lemma sum_ok_counts (rows : list result_row) :
  ok_valid rows -> sum_ok (map view_of rows) = len (successes rows).
Proof.
  unfold len, successes.
  induction 1 as [|r l Hr Hl IH]; [reflexivity|].
  cbn [map filter]. rewrite sum_ok_cons, IH. cbn [view_of v_ok].
  destruct Hr as [-> | ->];
    [change (0 =? 1)%Z with false | change (1 =? 1)%Z with true];
    cbn [length]; lia.
Qed.

Lemma latencies_of_views (rows : list result_row) :
  ok_valid rows -> latencies_of (map view_of rows) = success_latencies rows.
Proof.
  unfold latencies_of, success_latencies, successes.
  induction 1 as [|r l Hr Hl IH]; [reflexivity|].
  cbn [map filter flat_map]. rewrite IH. cbn [view_of v_ok v_elapsed_ms].
  destruct Hr as [-> | ->]; reflexivity.
Qed.

Lemma window_ok_valid (db : database) (check_id since : Z) :
  ok_valid (results db) -> ok_valid (window db check_id since).
Proof.
  unfold ok_valid, window. rewrite !Forall_forall.
  intros H r Hr. apply filter_In in Hr as [Hr _]. auto.
Qed.

(** What the two reads of a window return, in terms of the stored rows. *)
Lemma select_since_facts (db : database) (check_id since : Z) :
  ok_valid (results db) ->
  let rows := select_since db check_id since in
  let stored := window db check_id since in
  len rows = len stored
  /\ sum_ok rows = len (successes stored)
  /\ Permutation (latencies_of rows) (success_latencies stored).
Proof.
  intros Hv rows stored.
  pose proof (window_ok_valid db check_id since Hv) as Hw. fold stored in Hw.
  assert (Hp : Permutation rows (map view_of stored))
    by apply order_by_ts_perm.
  repeat split.
  - unfold len. now rewrite (Permutation_length Hp), length_map.
  - rewrite (sum_ok_perm _ _ Hp). now apply sum_ok_counts.
  - rewrite <- (latencies_of_views stored Hw).
    unfold latencies_of. now apply Permutation_flat_map.
Qed.

(** ** Status Aggregator: one snapshot *)

Lemma inject_Z_len_nonzero {A : Type} (x : A) (l : list A) :
  ~ inject_Z (len (x :: l)) == 0.
Proof.
  unfold len, Qeq. cbn [Qnum Qden inject_Z length]. lia.
Qed.

Lemma uptime_of_total (rows : list result_view) :
  exists up,
    uptime_of rows = Ok up
    /\ up == match rows with
             | [] => 0
             | _ :: _ => 100 * inject_Z (sum_ok rows) / inject_Z (len rows)
             end.
Proof.
  destruct rows as [|x l].
  - exists 0. split; reflexivity.
  - pose proof (inject_Z_len_nonzero x l) as Hn.
    unfold uptime_of, py_div.
    destruct (Qeq_bool (inject_Z (len (x :: l))) 0) eqn:E.
    + apply Qeq_bool_iff in E. contradiction.
    + eexists. split; [reflexivity|]. field. exact Hn.
Qed.

Lemma percentile_95_total (values : list Q) :
  exists p95, percentile values 95 = Ok p95 /\ (values = [] <-> p95 = None).
Proof.
  destruct values as [|x l].
  - exists None. split; [reflexivity | tauto].
  - assert (Hne : x :: l <> []) by discriminate.
    assert (Hp : 0 <= 95 <= 100) by lra.
    eexists. split; [apply (percentile_in_range _ _ Hne Hp)|].
    split; discriminate.
Qed.

(** Eight successes out of ten give 80 percent, and the p95 of their
    latencies is interpolated between 400 and 450; the latency of the failed
    row is left out. *)
Example ten_rows_aggregates :
  (exists up, uptime_of ten_rows = Ok up /\ up == 80)
  /\ length (latencies_of ten_rows) = 8%nat
  /\ (exists p, percentile (latencies_of ten_rows) 95 = Ok (Some p)
                /\ p == 4325 # 10).
Proof.
  split; [|split].
  - eexists. split; [reflexivity | vm_compute; reflexivity].
  - reflexivity.
  - eexists. split; [reflexivity | vm_compute; reflexivity].
Qed.

(** The loop body of [api_status]: it reads, leaves the world as it found
    it, and fails only when the URL of the target is refused. *)
Lemma status_of_run (now : Z) (r : check_row) (w : world) :
  let r24 := select_since (w_db w) (c_id r) (now - hours_24) in
  let r7 := select_since (w_db w) (c_id r) (now - days_7) in
  exists up24 up7 p95,
    uptime_of r24 = Ok up24
    /\ uptime_of r7 = Ok up7
    /\ percentile (latencies_of r24) 95 = Ok p95
    /\ status_of now r w =
       (if w_url_ok w (c_url r)
        then Ok (mk_status (c_url r) (py_round up24 2) (py_round up7 2)
                           (option_map (fun p => py_round p 1) p95)
                           (len r24)
                           (snd (score_and_grade up24 p95))
                           (py_round (fst (score_and_grade up24 p95)) 1))
        else Raise ValidationError,
        w).
Proof.
  intros r24 r7.
  destruct (uptime_of_total r24) as (up24 & H24 & _).
  destruct (uptime_of_total r7) as (up7 & H7 & _).
  destruct (percentile_95_total (latencies_of r24)) as (p95 & Hp & _).
  exists up24, up7, p95. repeat split; try assumption.
  unfold status_of, fetch_results_since, mbind, get_db, mret, lift,
    validate_url.
  fold r24 r7. rewrite H24, H7, Hp.
  now destruct (w_url_ok w (c_url r)).
Qed.

Lemma for_each_reader {A B : Type} (body : A -> M B) (R : A -> B -> Prop)
      (w : world) (l : list A) :
  (forall a, In a l -> exists b, body a w = (Ok b, w) /\ R a b) ->
  exists bs, for_each l body w = (Ok bs, w) /\ Forall2 R l bs.
Proof.
  induction l as [|a l IH]; intros H.
  - exists []. split; [reflexivity | constructor].
  - destruct (H a (or_introl eq_refl)) as (b & Hb & HR).
    destruct IH as (bs & Hbs & HF); [intros; apply H; now right|].
    exists (b :: bs). split; [|now constructor].
    cbn [for_each]. unfold mbind, mret. now rewrite Hb, Hbs.
Qed.

(** A reading loop whose body fails exactly on the elements a test
    refuses: it returns when the test accepts them all and raises
    otherwise. *)
Lemma for_each_checked {A B : Type} (body : A -> M B) (ok : A -> bool)
      (R : A -> B -> Prop) (e0 : exn) (w : world) (l : list A) :
  (forall a, In a l ->
             if ok a then exists b, body a w = (Ok b, w) /\ R a b
             else body a w = (Raise e0, w)) ->
  if forallb ok l
  then exists bs, for_each l body w = (Ok bs, w) /\ Forall2 R l bs
  else for_each l body w = (Raise e0, w).
Proof.
  induction l as [|a l IH]; intros H.
  - cbn. exists []. split; [reflexivity | constructor].
  - pose proof (H a (or_introl eq_refl)) as Ha.
    assert (Hl : forall x, In x l ->
                 if ok x then exists b, body x w = (Ok b, w) /\ R x b
                 else body x w = (Raise e0, w)).
    { intros x Hx. apply H. now right. }
    specialize (IH Hl). cbn [forallb for_each].
    destruct (ok a); cbn [andb].
    + destruct Ha as (b & Hb & HR).
      destruct (forallb ok l).
      * destruct IH as (bs & Hbs & HF). exists (b :: bs).
        split; [|now constructor].
        unfold mbind, mret. now rewrite Hb, Hbs.
      * unfold mbind, mret. now rewrite Hb, IH.
    + unfold mbind. now rewrite Ha.
Qed.

Lemma forallb_map {A B : Type} (f : B -> bool) (g : A -> B) (l : list A) :
  forallb f (map g l) = forallb (fun x => f (g x)) l.
Proof. induction l; cbn; congruence. Qed.

Lemma api_status_cases (w : world) :
  if urls_ok w
  then exists items,
      api_status w = (Ok items, advance w)
      /\ Forall2 (snapshot_computed (w_db w) (w_clock w (w_steps w)))
                 (checks (w_db w)) items
  else api_status w = (Raise ValidationError, advance w).
Proof.
  set (now := w_clock w (w_steps w)).
  pose proof (for_each_checked (status_of now)
                (fun r => w_url_ok w (c_url r))
                (snapshot_computed (w_db w) now) ValidationError
                (advance w) (checks (w_db w))) as H.
  unfold urls_ok, urls. rewrite forallb_map.
  assert (Hbody : forall r, In r (checks (w_db w)) ->
            if w_url_ok w (c_url r)
            then exists item, status_of now r (advance w) = (Ok item, advance w)
                              /\ snapshot_computed (w_db w) now r item
            else status_of now r (advance w)
                 = (Raise ValidationError, advance w)).
  { intros r _.
    destruct (status_of_run now r (advance w))
      as (up24 & up7 & p95 & H24 & H7 & Hp & Hrun).
    cbn [advance w_db w_url_ok] in *. rewrite Hrun.
    destruct (w_url_ok w (c_url r)); [|reflexivity].
    eexists. split; [reflexivity|]. exists up24, up7, p95. auto. }
  specialize (H Hbody).
  unfold api_status, select_all_checks, mbind, get_db, mret, now_utc.
  exact H.
Qed.

Lemma api_status_run (w : world) :
  urls_ok w = true ->
  exists items,
    api_status w = (Ok items, advance w)
    /\ Forall2 (snapshot_computed (w_db w) (w_clock w (w_steps w)))
               (checks (w_db w)) items.
Proof.
  intros H. pose proof (api_status_cases w) as Hc. now rewrite H in Hc.
Qed.

Lemma api_status_returns (w : world) (items : list StatusItem) :
  fst (api_status w) = Ok items ->
  urls_ok w = true
  /\ Forall2 (snapshot_computed (w_db w) (w_clock w (w_steps w)))
             (checks (w_db w)) items.
Proof.
  intros H. pose proof (api_status_cases w) as Hc.
  destruct (urls_ok w).
  - destruct Hc as (items' & Hrun & HF). rewrite Hrun in H.
    cbn [fst] in H. injection H as <-. auto.
  - rewrite Hc in H. discriminate.
Qed.

(** ** Display precision *)

Lemma pow10_pos (nd : nat) : 0 < pow10 nd.
Proof.
  unfold pow10. change 0 with (inject_Z 0). rewrite <- Zlt_Qlt.
  apply Z.pow_pos_nonneg; lia.
Qed.

Lemma round_half_even_near (y : Q) :
  inject_Z (round_half_even y) - (1 # 2) <= y
  /\ y <= inject_Z (round_half_even y) + (1 # 2).
Proof.
  pose proof (Qfloor_le y) as Hlo. pose proof (Qlt_floor y) as Hhi.
  rewrite inject_Z_plus in Hhi. change (inject_Z 1) with 1 in Hhi.
  unfold round_half_even.
  qcases; [| |destruct (Z.even (Qfloor y))];
    rewrite ?inject_Z_plus; change (inject_Z 1) with 1; lra.
Qed.

Lemma round_half_even_integral (y : Q) (z : Z) :
  y == inject_Z z -> round_half_even y = z.
Proof.
  intros H. unfold round_half_even.
  rewrite (Qfloor_comp _ _ H), Qfloor_Z.
  assert (Hd : Qlt_bool (y - inject_Z z) (1 # 2) = true).
  { unfold Qlt_bool. apply negb_true_iff.
    destruct (Qle_bool (1 # 2) (y - inject_Z z)) eqn:E; [|reflexivity].
    apply Qle_bool_true in E. lra. }
  now rewrite Hd.
Qed.

Lemma py_round_has_decimals (x : Q) (nd : nat) :
  has_decimals nd (py_round x nd).
Proof.
  unfold has_decimals, py_round at 1.
  pose proof (pow10_pos nd) as HP.
  rewrite (round_half_even_integral _ (round_half_even (x * pow10 nd)));
    [reflexivity|].
  unfold py_round. field. lra.
Qed.

Lemma py_round_near (x : Q) (nd : nat) :
  py_round x nd - (1 # 2) / pow10 nd <= x
  /\ x <= py_round x nd + (1 # 2) / pow10 nd.
Proof.
  pose proof (pow10_pos nd) as HP.
  destruct (round_half_even_near (x * pow10 nd)) as [Hlo Hhi].
  unfold py_round.
  set (z := inject_Z (round_half_even (x * pow10 nd))) in *.
  split.
  - apply Qle_trans with ((z - (1 # 2)) / pow10 nd).
    + apply Qle_lteq. right. field. lra.
    + apply Qle_shift_div_r; assumption.
  - apply Qle_trans with ((z + (1 # 2)) / pow10 nd).
    + apply Qle_shift_div_l; assumption.
    + apply Qle_lteq. right. field. lra.
Qed.

(** C6, as the code has it. In every snapshot the status query returns,
    the uptime percentages are rounded to 2 decimal places, the p95 latency
    and the composite score to 1 decimal place; the rounding happens when
    the snapshot is built, and percentile, score and grade are computed on
    the full-precision values.  The query returns whenever every registered
    URL passes the validation of the response model. *)
Theorem display_precision (w : world) :
  (urls_ok w = true -> exists items, fst (api_status w) = Ok items)
  /\ forall items,
      fst (api_status w) = Ok items ->
      Forall2 (snapshot_displayed (w_db w) (w_clock w (w_steps w)))
              (checks (w_db w)) items.
Proof.
  split.
  - intros Hok. destruct (api_status_run w Hok) as (items & Hrun & _).
    exists items. now rewrite Hrun.
  - intros items Hitems.
    destruct (api_status_returns w items Hitems) as [_ HF].
    eapply Forall2_impl; [|exact HF].
    intros r item (up24 & up7 & p95 & H24 & H7 & Hp & ->).
    exists up24, up7, p95. cbn.
    repeat split; try assumption; try apply py_round_has_decimals.
    destruct p95; cbn; [apply py_round_has_decimals | exact I].
Qed.

(** C6, as stated, fails on the uptime: one success out of three probes is
    displayed as 33.33, which is not a number of one decimal. *)
Lemma display_uptime_two_decimals :
  exists item,
    fst (api_status (run history_flaky (initial clock_ms http_flaky short_url)))
    = Ok [item]
    /\ uptime_24h item == 3333 # 100
    /\ ~ has_decimals 1 (uptime_24h item).
Proof.
  eexists. split; [vm_compute; reflexivity|].
  split; [vm_compute; reflexivity|].
  vm_compute. discriminate.
Qed.

(** The grade follows the full-precision score: 96.97 is displayed as 97.0
    and graded "A". *)
Example grade_uses_full_precision :
  py_round (fst (score_and_grade 100 (Some 573))) 1 == 97
  /\ snd (score_and_grade 100 (Some 573)) = "A"%string.
Proof. split; vm_compute; reflexivity. Qed.

(** ** The invariant along histories *)

Lemma empty_db_ok : db_ok empty_db.
Proof.
  unfold db_ok, ok_valid, urls; cbn.
  repeat split; try constructor. lia.
Qed.

Lemma api_add_check_world (u : string) (w : world) :
  snd (api_add_check u w) = snd (insert_check u w).
Proof.
  cbv beta iota delta
      [api_add_check CheckOut validate_url mbind select_all_checks get_db
       mret mraise].
  destruct (insert_check u w) as [[id|e] w']; cbn [snd]; [|reflexivity].
  destruct (find (fun r => (c_id r =? id)%Z) (checks (w_db w')))
    as [row|]; [|reflexivity].
  now destruct (w_url_ok w' (c_url row)).
Qed.

Lemma check_once_db_ok (check_id : Z) (u : string) (w : world) :
  db_ok (w_db w) -> db_ok (w_db (snd (check_once check_id u w))).
Proof.
  intros (Hu & Hseq & Hid & Hnd & Hr).
  destruct (check_once_run w check_id u) as (_ & -> & _).
  unfold db_ok, urls, ok_valid; cbn [checks checks_seq results].
  repeat split; try assumption.
  apply Forall_app. split; [exact Hr|]. constructor; [|constructor].
  unfold probe_row. destruct (w_http w (S (w_steps w)) u) as [sc|msg]; cbn.
  - destruct ((200 <=? sc) && (sc <? 400))%Z; auto.
  - now left.
Qed.

(** A loop whose body returns normally and keeps a property of the world
    does the same. *)
Lemma for_each_invariant {A B : Type} (P : world -> Prop) (body : A -> M B)
      (l : list A) :
  (forall a w, P w -> (exists b, fst (body a w) = Ok b) /\ P (snd (body a w))) ->
  forall w, P w ->
  (exists bs, fst (for_each l body w) = Ok bs /\ length bs = length l)
  /\ P (snd (for_each l body w)).
Proof.
  intros Hbody. induction l as [|a l IH]; intros w Hw.
  - split; [exists []; split; reflexivity | exact Hw].
  - destruct (Hbody a w Hw) as [(b & Hb) HP].
    cbn [for_each]. cbv beta iota delta [mbind mret].
    destruct (body a w) as [rb w1]. cbn [fst snd] in Hb, HP. subst rb.
    destruct (IH w1 HP) as [(bs & Hbs & Hlen) HP'].
    destruct (for_each l body w1) as [rbs w2]. cbn [fst snd] in Hbs, HP'.
    subst rbs. cbn [fst snd]. split; [|exact HP'].
    exists (b :: bs). split; [reflexivity | cbn; now rewrite Hlen].
Qed.

Lemma monitor_tick_db_ok (w : world) :
  db_ok (w_db w) ->
  fst (monitor_tick w) = Ok tt /\ db_ok (w_db (snd (monitor_tick w))).
Proof.
  intros Hw.
  destruct (for_each_invariant (fun w => db_ok (w_db w))
              (fun row => check_once (c_id row) (c_url row))
              (checks (w_db w))) with (w := w) as [(bs & Hbs & _) HP].
  - intros a w0 H0. split; [|now apply check_once_db_ok].
    exists tt. apply check_once_run.
  - exact Hw.
  - cbv beta iota delta [monitor_tick select_all_checks mbind get_db mret].
    destruct (for_each _ _ w) as [rbs w']. cbn [fst snd] in Hbs, HP.
    subst rbs. split; [reflexivity | exact HP].
Qed.

Lemma api_status_world (w : world) : snd (api_status w) = advance w.
Proof.
  pose proof (api_status_cases w) as H.
  destruct (urls_ok w); [destruct H as (items & -> & _) | rewrite H];
    reflexivity.
Qed.

Lemma handle_db_ok (w : world) (rq : request) :
  db_ok (w_db w) -> db_ok (w_db (handle w rq)).
Proof.
  intros Hw. destruct rq as [u|check_id u| |]; cbn [handle].
  - rewrite api_add_check_world. now apply insert_check_db_ok.
  - now apply check_once_db_ok.
  - now apply monitor_tick_db_ok.
  - now rewrite api_status_world.
Qed.

Lemma run_db_ok (history : list request) (w : world) :
  db_ok (w_db w) -> db_ok (w_db (run history w)).
Proof.
  unfold run. revert w.
  induction history as [|rq history IH]; intros w Hw; cbn [fold_left].
  - exact Hw.
  - apply IH. now apply handle_db_ok.
Qed.

Lemma reachable_db_ok (clock : nat -> Z) (http : nat -> string -> http_outcome)
      (url_ok : string -> bool) (history : list request) :
  db_ok (w_db (run history (initial clock http url_ok))).
Proof. apply run_db_ok. apply empty_db_ok. Qed.

(** ** Target Registry: the claim *)

Lemma insert_check_registers (w : world) (u : string) :
  exists id,
    fst (insert_check u w) = Ok id
    /\ (exists row, In row (checks (w_db (snd (insert_check u w))))
                    /\ c_url row = u /\ c_id row = id)
    /\ (if known (w_db w) u
        then checks (w_db (snd (insert_check u w))) = checks (w_db w)
        else checks (w_db (snd (insert_check u w))) =
             checks (w_db w) ++ [mk_check id u (w_clock w (w_steps w))])
    /\ known (w_db (snd (insert_check u w))) u = true.
Proof.
  destruct (known (w_db w) u) eqn:E.
  - destruct (insert_check_known w u E) as (row & Hin & Hu & ->).
    exists (c_id row). cbn. repeat split; eauto.
  - rewrite (insert_check_new w u E). eexists.
    cbn [fst snd with_db w_db checks advance].
    split; [reflexivity|]. split; [|split; [reflexivity|]].
    + eexists. split; [apply in_or_app; right; left; reflexivity|].
      split; reflexivity.
    + apply known_In. unfold urls; cbn. rewrite map_app.
      apply in_or_app. right. now left.
Qed.

(** C8. Registration is idempotent by URL. After any history of the
    service, registering a URL returns an identity, the one of the record
    of that URL; registering a known URL leaves the registry as it is and a
    new URL adds one record; registering the same URL again returns the same
    identity and adds nothing; and in the registry every URL appears at most
    once, the registered one exactly once. *)
Theorem registration_idempotent (clock : nat -> Z)
    (http : nat -> string -> http_outcome) (url_ok : string -> bool)
    (history : list request)
    (u : string) :
  let w := run history (initial clock http url_ok) in
  let first := insert_check u w in
  let second := insert_check u (snd first) in
  exists id,
    fst first = Ok id
    /\ fst second = Ok id
    /\ (exists row, In row (checks (w_db (snd first)))
                    /\ c_url row = u /\ c_id row = id)
    /\ (if known (w_db w) u
        then checks (w_db (snd first)) = checks (w_db w)
        else exists created_at,
            checks (w_db (snd first)) =
            checks (w_db w) ++ [mk_check id u created_at])
    /\ checks (w_db (snd second)) = checks (w_db (snd first))
    /\ NoDup (urls (w_db (snd second)))
    /\ count_occ string_dec (urls (w_db (snd second))) u = 1%nat.
Proof.
  intros w first second.
  assert (Hw : db_ok (w_db w)) by apply reachable_db_ok.
  assert (H1 : db_ok (w_db (snd first))) by now apply insert_check_db_ok.
  assert (H2 : db_ok (w_db (snd second))) by now apply insert_check_db_ok.
  destruct (insert_check_registers w u) as (id & Hid & Hrow & Hchecks & Hk).
  fold first in Hid, Hrow, Hchecks, Hk.
  destruct (insert_check_known (snd first) u Hk) as (row' & Hin' & Hu' & Hs).
  fold second in Hs.
  assert (Hsame : c_id row' = id).
  { destruct Hrow as (row & Hin & Hu & Hi).
    destruct H1 as (Hnd & _).
    assert (row' = row); [|now subst].
    clear - Hnd Hin Hin' Hu Hu'. unfold urls in Hnd.
    rewrite <- Hu in Hu'. clear Hu.
    induction (checks (w_db (snd first))) as [|r l IH]; [contradiction|].
    inversion Hnd as [|? ? Hnot Hnd']; subst.
    destruct Hin as [->|Hin], Hin' as [->|Hin']; auto.
    - exfalso. apply Hnot. rewrite <- Hu'. now apply in_map.
    - exfalso. apply Hnot. rewrite Hu'. now apply in_map. }
  exists id. repeat split.
  - exact Hid.
  - rewrite Hs. cbn. now rewrite Hsame.
  - exact Hrow.
  - destruct (known (w_db w) u); [exact Hchecks | eauto].
  - now rewrite Hs.
  - apply H2.
  - apply NoDup_count_occ'; [apply H2|].
    rewrite Hs. cbn. now apply known_In.
Qed.

(** The registration endpoint: its assertion holds, it answers with the
    record of the URL. *)
Lemma find_by_id (l : list check_row) (row : check_row) :
  NoDup (map c_id l) -> In row l ->
  find (fun r => (c_id r =? c_id row)%Z) l = Some row.
Proof.
  induction l as [|r l IH]; intros Hnd Hin; [contradiction|].
  cbn [map] in Hnd. inversion Hnd as [|? ? Hnot Hnd']; subst.
  cbn [find]. destruct Hin as [->|Hin].
  - now rewrite Z.eqb_refl.
  - destruct (c_id r =? c_id row)%Z eqn:E; [|now apply IH].
    apply Z.eqb_eq in E. exfalso. apply Hnot. rewrite E. now apply in_map.
Qed.

Lemma insert_check_url_ok (w : world) (u : string) :
  w_url_ok (snd (insert_check u w)) = w_url_ok w.
Proof.
  destruct (known (w_db w) u) eqn:E.
  - now destruct (insert_check_known w u E) as (row & _ & _ & ->).
  - now rewrite (insert_check_new w u E).
Qed.

Lemma CheckOut_run (row : check_row) (w : world) :
  CheckOut row w
  = (if w_url_ok w (c_url row) then Ok row else Raise ValidationError, w).
Proof.
  cbv beta iota delta [CheckOut validate_url mbind mret].
  destruct (w_url_ok w (c_url row)); [|reflexivity]. now destruct row.
Qed.

Lemma api_add_check_cases (w : world) (u : string) :
  db_ok (w_db w) ->
  exists row,
    In row (checks (w_db (snd (api_add_check u w))))
    /\ c_url row = u
    /\ fst (api_add_check u w)
       = if w_url_ok w u then Ok row else Raise ValidationError.
Proof.
  intros Hw.
  pose proof (insert_check_db_ok w u Hw) as (_ & _ & _ & Hnd & _).
  pose proof (insert_check_url_ok w u) as Hv.
  destruct (insert_check_registers w u)
    as (id & Hid & (row & Hin & Hu & Hi) & _).
  rewrite api_add_check_world.
  exists row. split; [exact Hin|]. split; [exact Hu|].
  cbv beta iota delta
      [api_add_check mbind select_all_checks get_db mret mraise].
  destruct (insert_check u w) as [res w']. cbn [fst snd] in *.
  subst res. rewrite <- Hi, (find_by_id _ row Hnd Hin), CheckOut_run.
  cbn [fst]. now rewrite Hv, Hu.
Qed.

Lemma api_add_check_ok (w : world) (u : string) :
  db_ok (w_db w) -> w_url_ok w u = true ->
  exists row,
    fst (api_add_check u w) = Ok row
    /\ c_url row = u
    /\ In row (checks (w_db (snd (api_add_check u w)))).
Proof.
  intros Hw Hv.
  destruct (api_add_check_cases w u Hw) as (row & Hin & Hu & Hrun).
  rewrite Hv in Hrun. eauto.
Qed.

(** ** Scheduler: one round, probes taken in registry order *)

Lemma probes_append (l : list check_row) (w : world) :
  let r := for_each l (fun row => check_once (c_id row) (c_url row)) w in
  (exists bs, fst r = Ok bs)
  /\ checks (w_db (snd r)) = checks (w_db w)
  /\ map r_check_id (results (w_db (snd r)))
     = map r_check_id (results (w_db w)) ++ map c_id l.
Proof.
  revert w. induction l as [|row l IH]; intros w; cbn [for_each].
  - cbv beta iota delta [mret]. cbn [fst snd map].
    rewrite app_nil_r. eauto.
  - cbv beta iota delta [mbind mret].
    destruct (check_once_appends w (c_id row) (c_url row))
      as (Hok & (new & Hnew & Hfor) & Hchecks).
    destruct (check_once (c_id row) (c_url row) w) as [res w1].
    cbn [fst snd] in *. subst res.
    destruct (IH w1) as ((bs & Hbs) & Hc & Hr). cbv zeta in *.
    destruct (for_each l _ w1) as [res w2].
    cbn [fst snd] in *. subst res. cbn [fst snd].
    repeat split.
    + eauto.
    + congruence.
    + rewrite Hr, Hnew, map_app. cbn [map]. rewrite Hfor.
      now rewrite <- app_assoc.
Qed.

(** A round never raises, leaves the registry alone and writes one row per
    registered target, in registry order. *)
Lemma monitor_tick_rows (w : world) :
  fst (monitor_tick w) = Ok tt
  /\ checks (w_db (snd (monitor_tick w))) = checks (w_db w)
  /\ map r_check_id (results (w_db (snd (monitor_tick w))))
     = map r_check_id (results (w_db w)) ++ map c_id (checks (w_db w)).
Proof.
  destruct (probes_append (checks (w_db w)) w) as ((bs & Hbs) & Hc & Hr).
  cbv zeta in *.
  cbv beta iota delta [monitor_tick select_all_checks mbind get_db mret].
  destruct (for_each _ _ w) as [res w']. cbn [fst snd] in *. subst res.
  cbn [fst snd]. auto.
Qed.

(** ** Status Aggregator: computed and specified uptime *)

Lemma len_nil_iff {A : Type} (l : list A) : len l = 0%Z <-> l = [].
Proof.
  unfold len. destruct l; cbn [length]; split; intros H;
    try reflexivity; try discriminate; lia.
Qed.

Lemma uptime_of_spec (db : database) (check_id since : Z) (up : Q) :
  ok_valid (results db) ->
  uptime_of (select_since db check_id since) = Ok up ->
  up == uptime_spec (window db check_id since).
Proof.
  intros Hv Hup.
  destruct (select_since_facts db check_id since Hv) as (Hlen & Hsum & _).
  destruct (uptime_of_total (select_since db check_id since))
    as (up' & Hup' & Heq).
  assert (up' = up) by congruence. subst up'.
  rewrite Heq. unfold uptime_spec.
  destruct (select_since db check_id since) as [|x l],
           (window db check_id since) as [|y l'].
  - reflexivity.
  - symmetry in Hlen. apply len_nil_iff in Hlen. discriminate.
  - apply len_nil_iff in Hlen. discriminate.
  - now rewrite Hsum, Hlen.
Qed.

Lemma no_history_window (db : database) (r : check_row) (since : Z) :
  no_history db r = true -> window db (c_id r) since = [].
Proof.
  unfold no_history, window. intros H.
  induction (results db) as [|row l IH]; [reflexivity|].
  cbn [forallb] in H. apply andb_prop in H as [H1 H2].
  cbn [filter]. unfold in_window at 1.
  apply negb_true_iff in H1. rewrite H1. cbn [andb]. now apply IH.
Qed.

(** * Further properties *)

(** ** Percentile Estimator: edges *)

Lemma percentile_value (values : list Q) (p : Q) :
  values <> [] -> 0 <= p <= 100 ->
  percentile values p
  = Ok (Some (interpolate (sorted values) (rank (length values) p))).
Proof.
  intros Hne Hp. rewrite (percentile_in_range values p Hne Hp).
  cbv zeta. unfold interpolate, rank. now rewrite sorted_length.
Qed.

Lemma py_getitem_beyond {A : Type} (l : list A) (i : Z) :
  (Z.of_nat (length l) <= i)%Z -> py_getitem l i = Raise IndexError.
Proof.
  intros H. unfold py_getitem.
  destruct (i <? 0)%Z eqn:E1; [lia|].
  destruct ((i <? 0) || (Z.of_nat (length l) <=? i))%Z eqn:E2; [reflexivity|].
  lia.
Qed.

Lemma py_getitem_raises {A : Type} (l : list A) (i : Z) (e : exn) :
  py_getitem l i = Raise e -> e = IndexError.
Proof.
  unfold py_getitem.
  destruct (_ || _)%bool; [congruence|].
  destruct (nth_error l _); congruence.
Qed.

(** X3. On a single sample the estimator returns that sample for every
    percentile, also outside [0,100]. *)
Theorem percentile_singleton (x p : Q) : percentile [x] p = Ok (Some x).
Proof.
  assert (Hk : inject_Z (Z.of_nat (length (sorted [x])) - 1) * (p / 100) == 0).
  { cbn. change (inject_Z 0) with 0. ring. }
  unfold percentile.
  rewrite (Qfloor_comp _ _ Hk), (Qceiling_comp _ _ Hk).
  change (Qfloor 0 =? Qceiling 0)%Z with true. cbv iota.
  rewrite py_int_nonneg by (rewrite Hk; lra).
  rewrite (Qfloor_comp _ _ Hk). reflexivity.
Qed.



(** ** Scorer: grades follow scores, caps and clamps *)

Lemma grade_of_rank_anti (s1 s2 : Q) :
  s1 <= s2 -> (grade_rank (grade_of s2) <= grade_rank (grade_of s1))%nat.
Proof.
  intros H. unfold grade_of.
  qcases; try lra; vm_compute; lia.
Qed.

Lemma Qle_bool_comp_r (c s s' : Q) : s == s' -> Qle_bool c s = Qle_bool c s'.
Proof.
  intros H.
  destruct (Qle_bool c s) eqn:E1, (Qle_bool c s') eqn:E2; try reflexivity.
  - apply Qle_bool_true in E1. apply Qle_bool_false in E2. lra.
  - apply Qle_bool_false in E1. apply Qle_bool_true in E2. lra.
Qed.

Lemma grade_of_comp (s s' : Q) : s == s' -> grade_of s = grade_of s'.
Proof.
  intros H. unfold grade_of.
  now rewrite !(Qle_bool_comp_r _ s s' H).
Qed.

Lemma grade_A_plus_score (s : Q) : grade_of s = "A+"%string -> 97 <= s.
Proof.
  unfold grade_of. destruct (Qle_bool 97 s) eqn:E.
  - intros _. now apply Qle_bool_true.
  - repeat match goal with
           | |- context [Qle_bool ?a ?b] => destruct (Qle_bool a b)
           end; discriminate.
Qed.

(** X6. The grade follows the inputs: a higher uptime never gives a worse
    grade at the same p95, and a lower p95 never gives a worse grade at the
    same uptime (rank 0 is "A+", rank 10 is "F"). *)
Theorem grade_monotone (p95 : option Q) (u u1 u2 p1 p2 : Q) :
  u1 <= u2 -> p1 <= p2 ->
  le (grade_rank (snd (score_and_grade u2 p95)))
     (grade_rank (snd (score_and_grade u1 p95)))
  /\ le (grade_rank (snd (score_and_grade u (Some p1))))
        (grade_rank (snd (score_and_grade u (Some p2)))).
Proof.
  intros Hu Hp. unfold score_and_grade; cbn [snd]. split.
  - apply grade_of_rank_anti. pose proof (clamp_mono u1 u2 Hu). lra.
  - apply grade_of_rank_anti. pose proof (latency_score_anti p1 p2 Hp). lra.
Qed.

Lemma grade_monotone_witness :
  le (grade_rank (snd (score_and_grade 99 (Some 500))))
     (grade_rank (snd (score_and_grade 50 (Some 500))))
  /\ le (grade_rank (snd (score_and_grade 80 (Some 400))))
        (grade_rank (snd (score_and_grade 80 (Some 2000)))).
Proof.
  apply (grade_monotone (Some 500) 80 50 99 400 2000); lra.
Defined.

(** X7. Without latency data the Scorer gives what an unacceptable latency
    of 3000 ms or more gives: the latency part is 0, the score is at most
    70 and the grade is "C-", "D" or "F". *)
Theorem no_latency_data_caps_score (u p : Q) :
  3000 <= p ->
  score_and_grade u (Some p) = score_and_grade u None
  /\ fst (score_and_grade u None) <= 70
  /\ In (snd (score_and_grade u None)) ["C-"; "D"; "F"]%string.
Proof.
  intros Hp. split; [|split].
  - unfold score_and_grade, latency_score_of.
    destruct (Qle_bool p 300) eqn:E1; [apply Qle_bool_true in E1; lra|].
    destruct (Qle_bool 3000 p) eqn:E2; [reflexivity|].
    apply Qle_bool_false in E2. lra.
  - unfold score_and_grade; cbn [fst latency_score_of].
    pose proof (clamp_range u). lra.
  - unfold score_and_grade; cbn [snd latency_score_of].
    pose proof (clamp_range u) as Hc.
    set (s := (7 # 10) * py_max 0 (py_min 100 u) + (3 # 10) * 0).
    assert (Hs : s <= 70) by (subst s; lra).
    unfold grade_of. qcases; try lra; cbn; tauto.
Qed.

Lemma no_latency_data_caps_score_witness :
  score_and_grade 100 (Some 5000) = score_and_grade 100 None
  /\ fst (score_and_grade 100 None) <= 70
  /\ In (snd (score_and_grade 100 None)) ["C-"; "D"; "F"]%string.
Proof. apply (no_latency_data_caps_score 100 5000). lra. Defined.

(** X8. The uptime input is clamped: an uptime above 100 is scored and
    graded as 100, a negative one as 0. *)
Theorem uptime_is_clamped (p95 : option Q) (lo hi : Q) :
  lo <= 0 -> 100 <= hi ->
  (fst (score_and_grade lo p95) == fst (score_and_grade 0 p95)
   /\ snd (score_and_grade lo p95) = snd (score_and_grade 0 p95))
  /\ (fst (score_and_grade hi p95) == fst (score_and_grade 100 p95)
      /\ snd (score_and_grade hi p95) = snd (score_and_grade 100 p95)).
Proof.
  intros Hlo Hhi.
  assert (H0 : py_max 0 (py_min 100 lo) == py_max 0 (py_min 100 0)).
  { unfold py_max, py_min. qcases; lra. }
  assert (H1 : py_max 0 (py_min 100 hi) == py_max 0 (py_min 100 100)).
  { unfold py_max, py_min. qcases; lra. }
  unfold score_and_grade; cbn [fst snd].
  repeat split; try (apply grade_of_comp); try rewrite H0; try rewrite H1;
    reflexivity.
Qed.

Lemma uptime_is_clamped_witness :
  (fst (score_and_grade (-5) (Some 400)) == fst (score_and_grade 0 (Some 400))
   /\ snd (score_and_grade (-5) (Some 400))
      = snd (score_and_grade 0 (Some 400)))
  /\ (fst (score_and_grade 250 (Some 400))
      == fst (score_and_grade 100 (Some 400))
      /\ snd (score_and_grade 250 (Some 400))
         = snd (score_and_grade 100 (Some 400))).
Proof. apply (uptime_is_clamped (Some 400) (-5) 250); lra. Defined.

Lemma clamp_below_input (u : Q) :
  0 < py_max 0 (py_min 100 u) -> py_max 0 (py_min 100 u) <= u.
Proof. unfold py_max, py_min. qcases; lra. Qed.

Lemma clamp_at_most_input (u : Q) :
  0 <= u -> py_max 0 (py_min 100 u) <= u.
Proof. unfold py_max, py_min. qcases; lra. Qed.





(** ** Result Store: the windowed read *)

Lemma Forall_perm {A : Type} (P : A -> Prop) (l l' : list A) :
  Permutation l l' -> Forall P l -> Forall P l'.
Proof.
  intros H. rewrite !Forall_forall. intros HF x Hx. apply HF.
  eapply Permutation_in; [symmetry; exact H | exact Hx].
Qed.

Lemma insert_by_ts_sorted (x : result_view) (l : list result_view) :
  StronglySorted by_ts l -> StronglySorted by_ts (insert_by_ts x l).
Proof.
  induction 1 as [|y l Hl IH Hy]; cbn [insert_by_ts].
  - constructor; constructor.
  - destruct (v_ts x <=? v_ts y)%Z eqn:E.
    + apply Z.leb_le in E. constructor; [now constructor|].
      constructor; [exact E|].
      eapply Forall_impl; [|exact Hy]. unfold by_ts. intros; lia.
    + apply Z.leb_gt in E. constructor; [exact IH|].
      apply (Forall_perm _ (x :: l)).
      * symmetry. apply insert_by_ts_perm.
      * constructor; [unfold by_ts; lia | exact Hy].
Qed.

Lemma order_by_ts_sorted (l : list result_view) :
  StronglySorted by_ts (order_by_ts l).
Proof.
  induction l; cbn [order_by_ts]; [constructor|].
  now apply insert_by_ts_sorted.
Qed.

Lemma window_In (db : database) (check_id since : Z) (r : result_row) :
  In r (window db check_id since)
  <-> In r (results db) /\ r_check_id r = check_id /\ (since <= r_ts r)%Z.
Proof.
  unfold window, in_window. rewrite filter_In, andb_true_iff.
  rewrite Z.eqb_eq, Z.leb_le. tauto.
Qed.

(** X11. The windowed read never fails and changes nothing; it returns,
    in ascending order of timestamp, the views of exactly the stored rows
    of the target whose timestamp is at or after the cutoff, each as many
    times as it is stored: a rearrangement of the views of the filtered
    table. *)
Theorem fetch_results_since_window (check_id since : Z) (w : world) :
  exists rows,
    fetch_results_since check_id since w = (Ok rows, w)
    /\ StronglySorted by_ts rows
    /\ Permutation rows
         (map view_of
              (filter (fun r => ((r_check_id r =? check_id)
                                 && (since <=? r_ts r))%Z)
                      (results (w_db w))))
    /\ Forall (fun v => (since <= v_ts v)%Z) rows.
Proof.
  exists (select_since (w_db w) check_id since).
  split; [reflexivity|]. split; [apply order_by_ts_sorted|].
  assert (Hp : Permutation (select_since (w_db w) check_id since)
                           (map view_of (window (w_db w) check_id since)))
    by apply order_by_ts_perm.
  split; [exact Hp|].
  apply (Forall_perm _ _ _ (Permutation_sym Hp)).
  apply Forall_forall. intros v Hv.
  apply in_map_iff in Hv as (r & <- & Hr).
  apply window_In in Hr. cbn. tauto.
Qed.

Lemma filter_length_le {A : Type} (f g : A -> bool) (l : list A) :
  (forall x, f x = true -> g x = true) ->
  (length (filter f l) <= length (filter g l))%nat.
Proof.
  intros H. induction l as [|x l IH]; cbn [filter]; [lia|].
  destruct (f x) eqn:Ef.
  - rewrite (H x Ef). cbn [length]. lia.
  - destruct (g x); cbn [length]; lia.
Qed.

Lemma select_since_length (db : database) (check_id since : Z) :
  length (select_since db check_id since)
  = length (window db check_id since).
Proof.
  unfold select_since.
  rewrite (Permutation_length (order_by_ts_perm _)), length_map.
  reflexivity.
Qed.

(** X12. An earlier cutoff reads a larger window: every view returned for
    the later cutoff is returned for the earlier one, so the 24h window of a
    target never holds more samples than its 7d window. *)
Theorem earlier_cutoff_reads_more (db : database) (check_id early late : Z) :
  (early <= late)%Z ->
  incl (select_since db check_id late) (select_since db check_id early)
  /\ (len (select_since db check_id late)
      <= len (select_since db check_id early))%Z.
Proof.
  intros H. split.
  - intros v Hv. unfold select_since in *.
    apply (Permutation_in _ (order_by_ts_perm _)) in Hv.
    apply (Permutation_in _ (Permutation_sym (order_by_ts_perm _))).
    apply in_map_iff in Hv as (r & <- & Hr). apply in_map.
    fold (window db check_id late) in Hr.
    fold (window db check_id early).
    apply window_In in Hr. apply window_In. intuition lia.
  - unfold len. rewrite !select_since_length. apply inj_le.
    apply filter_length_le. unfold in_window. intros r Hr.
    apply andb_true_iff in Hr as [H1 H2]. rewrite H1. cbn [andb].
    apply Z.leb_le in H2. apply Z.leb_le. lia.
Qed.

Lemma earlier_cutoff_reads_more_witness :
  incl (select_since (w_db flaky_world) 1 1000000012000)
       (select_since (w_db flaky_world) 1 1000000000000)
  /\ (len (select_since (w_db flaky_world) 1 1000000012000)
      <= len (select_since (w_db flaky_world) 1 1000000000000))%Z.
Proof.
  apply (earlier_cutoff_reads_more (w_db flaky_world) 1); lia.
Defined.

(** ** Probe and read back *)

Lemma window_snoc (db db' : database) (row : result_row) (check_id since : Z) :
  results db' = results db ++ [row] ->
  window db' check_id since
  = window db check_id since
    ++ (if in_window check_id since row then [row] else []).
Proof.
  intros H. unfold window. rewrite H, filter_app. reflexivity.
Qed.

(** X13. A probe is read back by the windowed read of its target: the
    window of the probed target grows by exactly one sample when the cutoff
    is at or before the timestamp of the new row (and not at all
    otherwise), and the windows of every other target are unchanged. *)
Theorem probe_read_back (w : world) (check_id other since : Z) (u : string) :
  other <> check_id ->
  let db := w_db w in
  let db' := w_db (snd (check_once check_id u w)) in
  exists row,
    results db' = results db ++ [row]
    /\ len (select_since db' check_id since)
       = (len (select_since db check_id since)
          + (if (since <=? r_ts row)%Z then 1 else 0))%Z
    /\ select_since db' other since = select_since db other since.
Proof.
  intros Hother db db'.
  destruct (check_once_appends w check_id u) as (_ & (row & Hrow & Hid) & _).
  fold db db' in Hrow.
  exists row. split; [exact Hrow|]. split.
  - unfold len. rewrite !select_since_length.
    rewrite (window_snoc db db' row check_id since Hrow), length_app.
    unfold in_window. rewrite Hid, Z.eqb_refl. cbn [andb].
    destruct (since <=? r_ts row)%Z; cbn [length]; lia.
  - unfold select_since.
    fold (window db' other since). fold (window db other since).
    rewrite (window_snoc db db' row other since Hrow).
    unfold in_window. rewrite Hid.
    assert (E : (check_id =? other)%Z = false) by (apply Z.eqb_neq; congruence).
    rewrite E. cbn [andb]. now rewrite app_nil_r.
Qed.

Lemma probe_read_back_witness :
  exists row,
    results (w_db (snd (check_once 1 "u" flaky_world)))
    = results (w_db flaky_world) ++ [row]
    /\ len (select_since (w_db (snd (check_once 1 "u" flaky_world))) 1 0)
       = (len (select_since (w_db flaky_world) 1 0)
          + (if (0 <=? r_ts row)%Z then 1 else 0))%Z
    /\ select_since (w_db (snd (check_once 1 "u" flaky_world))) 2 0
       = select_since (w_db flaky_world) 2 0.
Proof.
  apply (probe_read_back flaky_world 1 2 0 "u"). discriminate.
Defined.

(** ** Status query: shape of the answer *)

Lemma Forall2_map_eq {A B C : Type} (f : A -> C) (g : B -> C)
      (R : A -> B -> Prop) (l : list A) (l' : list B) :
  (forall a b, R a b -> f a = g b) ->
  Forall2 R l l' -> map g l' = map f l.
Proof.
  intros H. induction 1 as [|a b l l' Hab _ IH]; cbn [map]; [reflexivity|].
  now rewrite (H a b Hab), IH.
Qed.


(** ** Status query: ranges and accuracy of the displayed numbers *)

Lemma round_half_even_between (a b : Z) (y : Q) :
  inject_Z a <= y -> y <= inject_Z b ->
  (a <= round_half_even y <= b)%Z.
Proof.
  intros Ha Hb.
  pose proof (Qfloor_le y) as Hfl. pose proof (Qlt_floor y) as Hlt.
  assert (Haf : (a <= Qfloor y)%Z).
  { rewrite <- (Qfloor_Z a). now apply Qfloor_resp_le. }
  assert (Hfb : (Qfloor y <= b)%Z).
  { rewrite Zle_Qle. lra. }
  unfold round_half_even.
  destruct (Qlt_bool (y - inject_Z (Qfloor y)) (1 # 2)) eqn:E1; [lia|].
  apply Qlt_bool_false in E1.
  assert (Hstrict : (Qfloor y < b)%Z).
  { rewrite Zlt_Qlt. lra. }
  destruct (Qlt_bool (1 # 2) (y - inject_Z (Qfloor y))); [lia|].
  destruct (Z.even (Qfloor y)); lia.
Qed.

Lemma py_round_between (a b : Z) (x : Q) (nd : nat) :
  inject_Z a <= x -> x <= inject_Z b ->
  inject_Z a <= py_round x nd <= inject_Z b.
Proof.
  intros Ha Hb. pose proof (pow10_pos nd) as HP.
  set (t := (10 ^ Z.of_nat nd)%Z).
  assert (Ht : pow10 nd = inject_Z t) by reflexivity.
  destruct (round_half_even_between (a * t) (b * t) (x * pow10 nd))
    as [Hlo Hhi].
  - rewrite inject_Z_mult, <- Ht. nra.
  - rewrite inject_Z_mult, <- Ht. nra.
  - rewrite Zle_Qle, inject_Z_mult, <- Ht in Hlo.
    rewrite Zle_Qle, inject_Z_mult, <- Ht in Hhi.
    unfold py_round. split.
    + apply Qle_shift_div_l; assumption.
    + apply Qle_shift_div_r; assumption.
Qed.

Lemma filter_length_le_all {A : Type} (f : A -> bool) (l : list A) :
  (length (filter f l) <= length l)%nat.
Proof.
  induction l as [|x l IH]; cbn [filter length]; [lia|].
  destruct (f x); cbn [length]; lia.
Qed.

Lemma uptime_spec_range (rows : list result_row) :
  0 <= uptime_spec rows <= 100.
Proof.
  unfold uptime_spec. destruct rows as [|r l]; [lra|].
  set (n := inject_Z (len (r :: l))).
  set (k := inject_Z (len (successes (r :: l)))).
  assert (Hn : 0 < n).
  { subst n. change 0 with (inject_Z 0). rewrite <- Zlt_Qlt.
    unfold len. cbn [length]. lia. }
  assert (Hk : 0 <= k /\ k <= n).
  { subst k n. change 0 with (inject_Z 0). rewrite <- !Zle_Qle.
    unfold len, successes. split; [lia|]. apply inj_le.
    apply filter_length_le_all. }
  split.
  - apply Qle_shift_div_l; [exact Hn | lra].
  - apply Qle_shift_div_r; [exact Hn | lra].
Qed.

Lemma Forall2_right {A B : Type} (R : A -> B -> Prop) (P : B -> Prop)
      (l : list A) (l' : list B) :
  (forall a b, R a b -> P b) -> Forall2 R l l' -> Forall P l'.
Proof.
  intros H. induction 1; constructor; eauto.
Qed.

(** X15. On a database written by the service every snapshot the status
    query returns is in range: both displayed uptimes and the displayed
    score lie in [0,100], the grade is one of the eleven letters and the
    sample count is not negative; and the query returns when every
    registered URL passes the validation of the response model. *)
Theorem snapshots_in_range (w : world) :
  db_ok (w_db w) ->
  (urls_ok w = true -> exists items, fst (api_status w) = Ok items)
  /\ forall items,
      fst (api_status w) = Ok items -> Forall snapshot_in_range items.
Proof.
  intros (_ & _ & _ & _ & Hv). split.
  { intros Hok. destruct (api_status_run w Hok) as (items & Hrun & _).
    exists items. now rewrite Hrun. }
  intros items Hitems.
  destruct (api_status_returns w items Hitems) as [_ HF].
  apply (Forall2_right _ _ _ _) with (2 := HF).
  intros r item (up24 & up7 & p95 & H24 & H7 & _ & ->).
  pose proof (uptime_of_spec _ _ _ _ Hv H24) as E24.
  pose proof (uptime_of_spec _ _ _ _ Hv H7) as E7.
  pose proof (uptime_spec_range
                (window (w_db w) (c_id r)
                        (w_clock w (w_steps w) - hours_24))) as R24.
  pose proof (uptime_spec_range
                (window (w_db w) (c_id r)
                        (w_clock w (w_steps w) - days_7))) as R7.
  unfold snapshot_in_range;
    cbn [uptime_24h uptime_7d score grade total_samples_24h].
  split; [|split; [|split; [|split]]].
  - apply (py_round_between 0 100);
      change (inject_Z 0) with 0; change (inject_Z 100) with 100; lra.
  - apply (py_round_between 0 100);
      change (inject_Z 0) with 0; change (inject_Z 100) with 100; lra.
  - apply (py_round_between 0 100);
      unfold score_and_grade; cbn [fst];
      pose proof (clamp_range up24);
      pose proof (latency_score_range p95);
      change (inject_Z 0) with 0; change (inject_Z 100) with 100; lra.
  - unfold score_and_grade; cbn [snd]. apply grade_of_in_grades.
  - unfold len. lia.
Qed.

Lemma snapshots_in_range_witness :
  (urls_ok flaky_world = true ->
   exists items, fst (api_status flaky_world) = Ok items)
  /\ forall items,
      fst (api_status flaky_world) = Ok items ->
      Forall snapshot_in_range items.
Proof.
  apply (snapshots_in_range flaky_world).
  exact (reachable_db_ok clock_ms http_flaky short_url history_flaky).
Defined.

Lemma py_round_2_near (x : Q) :
  - (1 # 200) <= py_round x 2 - x <= 1 # 200.
Proof.
  pose proof (py_round_near x 2) as H.
  assert (E : (1 # 2) / pow10 2 == 1 # 200) by reflexivity.
  rewrite E in H. lra.
Qed.

Lemma py_round_1_near (x : Q) :
  - (1 # 20) <= py_round x 1 - x <= 1 # 20.
Proof.
  pose proof (py_round_near x 1) as H.
  assert (E : (1 # 2) / pow10 1 == 1 # 20) by reflexivity.
  rewrite E in H. lra.
Qed.

(** X16. Rounding for display loses at most half a unit of the last
    decimal: in every snapshot the status query returns, each displayed
    uptime is within 0.005 of the computed uptime, the displayed score
    within 0.05 of the computed score, and the displayed p95, present
    exactly when a p95 was computed, within 0.05 of it; and the query
    returns when every registered URL passes the validation of the response
    model. *)
Theorem display_is_accurate (w : world) :
  (urls_ok w = true -> exists items, fst (api_status w) = Ok items)
  /\ forall items,
      fst (api_status w) = Ok items ->
      Forall2 (snapshot_close (w_db w) (w_clock w (w_steps w)))
              (checks (w_db w)) items.
Proof.
  split.
  { intros Hok. destruct (api_status_run w Hok) as (items & Hrun & _).
    exists items. now rewrite Hrun. }
  intros items Hitems.
  destruct (api_status_returns w items Hitems) as [_ HF].
  eapply Forall2_impl; [|exact HF].
  intros r item (up24 & up7 & p95 & H24 & H7 & Hp & ->).
  exists up24, up7, p95.
  cbn [uptime_24h uptime_7d score p95_ms_24h].
  split; [exact H24|]. split; [exact H7|]. split; [exact Hp|].
  split; [apply py_round_2_near|]. split; [apply py_round_2_near|].
  split; [apply py_round_1_near|].
  destruct p95; cbn [option_map]; [apply py_round_1_near | exact I].
Qed.

(** ** Properties kept along every history *)

(** A property of the database kept by a registration and by a probe is
    kept by every request, hence by every history. *)
Lemma run_invariant (P : database -> Prop) :
  (forall w u, P (w_db w) -> P (w_db (snd (insert_check u w)))) ->
  (forall w check_id u,
      P (w_db w) -> P (w_db (snd (check_once check_id u w)))) ->
  forall history w, P (w_db w) -> P (w_db (run history w)).
Proof.
  intros Hreg Hprobe history. unfold run.
  induction history as [|rq history IH]; intros w Hw; cbn [fold_left].
  - exact Hw.
  - apply IH. destruct rq as [u|check_id u| |]; cbn [handle].
    + rewrite api_add_check_world. now apply Hreg.
    + now apply Hprobe.
    + destruct (for_each_invariant (fun w => P (w_db w))
                  (fun row => check_once (c_id row) (c_url row))
                  (checks (w_db w))) with (w := w) as [_ HP].
      * intros a w0 H0. split; [|now apply Hprobe].
        exists tt. apply check_once_run.
      * exact Hw.
      * revert HP.
        cbv beta iota delta [monitor_tick select_all_checks mbind get_db mret].
        destruct (for_each _ _ w) as [[bs|e] w']; cbn [snd]; auto.
    + now rewrite api_status_world.
Qed.

Lemma seq_snoc (n : nat) :
  map Z.of_nat (seq 1 (S n)) = map Z.of_nat (seq 1 n) ++ [Z.of_nat n + 1]%Z.
Proof.
  rewrite seq_S, map_app. cbn [map]. repeat f_equal. lia.
Qed.

Lemma insert_check_ids (w : world) (u : string) :
  ids_sequential (w_db w) -> ids_sequential (w_db (snd (insert_check u w))).
Proof.
  intros (Hc & Hcs & Hr & Hrs).
  destruct (known (w_db w) u) eqn:E.
  - destruct (insert_check_known w u E) as (row & _ & _ & ->).
    repeat split; assumption.
  - rewrite (insert_check_new w u E).
    unfold ids_sequential, len;
      cbn [snd with_db w_db advance checks checks_seq results results_seq].
    rewrite length_app, map_app. cbn [length map c_id].
    rewrite Nat.add_1_r, seq_snoc, Hc, Hcs. unfold len.
    repeat split; try assumption. lia.
Qed.

Lemma check_once_ids (w : world) (check_id : Z) (u : string) :
  ids_sequential (w_db w) ->
  ids_sequential (w_db (snd (check_once check_id u w))).
Proof.
  intros (Hc & Hcs & Hr & Hrs).
  destruct (check_once_run w check_id u) as (_ & -> & _).
  unfold ids_sequential, len;
    cbn [checks checks_seq results results_seq].
  rewrite length_app, map_app. cbn [length map].
  rewrite Nat.add_1_r, seq_snoc, Hr, Hrs. unfold len.
  repeat split; try assumption; [|lia].
  f_equal. f_equal. unfold probe_row.
  destruct (w_http w (S (w_steps w)) u); cbn [r_id]; now rewrite Hrs.
Qed.

(** X17. Identifiers are handed out in sequence: after any history from
    an empty database the stored targets carry the identifiers 1, 2, ..., n
    in storage order and the stored results the identifiers 1, 2, ..., m,
    so reading the registry in storage order is reading it by ascending
    identifier. *)
Theorem identifiers_are_sequential (clock : nat -> Z)
    (http : nat -> string -> http_outcome) (url_ok : string -> bool)
    (history : list request) :
  ids_sequential (w_db (run history (initial clock http url_ok))).
Proof.
  apply run_invariant.
  - intros w u. apply insert_check_ids.
  - intros w check_id u. apply check_once_ids.
  - unfold ids_sequential. cbn. repeat split.
Qed.

Lemma extends_refl (db : database) : extends db db.
Proof. split; exists []; now rewrite app_nil_r. Qed.

Lemma extends_checks (db db1 db2 : database) (cs : list check_row) :
  extends db db1 ->
  checks db2 = checks db1 ++ cs -> results db2 = results db1 ->
  extends db db2.
Proof.
  intros [(cs1 & Hc) (rs1 & Hr)] H1 H2. split.
  - exists (cs1 ++ cs). now rewrite H1, Hc, app_assoc.
  - exists rs1. now rewrite H2.
Qed.

Lemma extends_results (db db1 db2 : database) (rs : list result_row) :
  extends db db1 ->
  checks db2 = checks db1 -> results db2 = results db1 ++ rs ->
  extends db db2.
Proof.
  intros [(cs1 & Hc) (rs1 & Hr)] H1 H2. split.
  - exists cs1. now rewrite H1.
  - exists (rs1 ++ rs). now rewrite H2, Hr, app_assoc.
Qed.

(** X18. Both tables are append-only: whatever requests the service
    handles, every target and every result stored before is still stored
    afterwards, unchanged and at the same position; new rows only come
    after them. *)
Theorem tables_are_append_only (history : list request) (w : world) :
  extends (w_db w) (w_db (run history w)).
Proof.
  apply (run_invariant (extends (w_db w))).
  - intros w0 u H.
    destruct (known (w_db w0) u) eqn:E.
    + destruct (insert_check_known w0 u E) as (row & _ & _ & ->). exact H.
    + rewrite (insert_check_new w0 u E).
      eapply extends_checks; [exact H | reflexivity | reflexivity].
  - intros w0 check_id u H.
    destruct (check_once_run w0 check_id u) as (_ & -> & _).
    eapply extends_results; [exact H | reflexivity | reflexivity].
  - apply extends_refl.
Qed.

(** ** Registration and listing endpoints *)

Lemma same_url_same_row (l : list check_row) (r r' : check_row) :
  NoDup (map c_url l) -> In r l -> In r' l -> c_url r = c_url r' -> r = r'.
Proof.
  induction l as [|a l IH]; intros Hnd Hr Hr' Hu; [contradiction|].
  cbn [map] in Hnd. inversion Hnd as [|? ? Hnot Hnd']; subst.
  destruct Hr as [->|Hr], Hr' as [->|Hr']; auto.
  - exfalso. apply Hnot. rewrite Hu. now apply in_map.
  - exfalso. apply Hnot. rewrite <- Hu. now apply in_map.
Qed.

(** ** Scheduler: a round under any interleaving *)

Lemma probe_settle_run (w : world) (check_id start : Z) (u : string) :
  fst (probe_settle check_id start u w) = Ok tt
  /\ (exists row,
        results (w_db (snd (probe_settle check_id start u w)))
        = results (w_db w) ++ [row]
        /\ r_check_id row = check_id)
  /\ checks (w_db (snd (probe_settle check_id start u w))) = checks (w_db w).
Proof.
  unfold probe_settle, try_except, mbind, now_utc, client_get, insert_result,
    execute_insert_result, advance, with_db; simpl.
  destruct (w_http w (w_steps w) u) as [status_code|msg]; simpl.
  - repeat split. eexists. split; reflexivity.
  - repeat split. eexists. split; reflexivity.
Qed.

(** [check_once] is its start followed by its settling. *)
Lemma check_once_split (check_id : Z) (u : string) (w : world) :
  check_once check_id u w
  = (start <~ now_utc ;; probe_settle check_id start u) w.
Proof.
  unfold check_once, probe_settle, try_except, mbind, now_utc, client_get;
    simpl.
  destruct (w_http w (S (w_steps w)) u); reflexivity.
Qed.

Lemma remove_nth_perm {A : Type} (k : nat) (l : list A) (a : A) :
  nth_error l k = Some a -> Permutation l (a :: remove_nth k l).
Proof.
  revert k. induction l as [|b l IH]; intros [|k] H; cbn in H;
    try discriminate.
  - injection H as ->. reflexivity.
  - cbn [remove_nth]. rewrite (IH k H) at 1. apply perm_swap.
Qed.

(** Every task is accounted for: at any point of a round, the rows written
    so far and the tasks still waiting or running make up the tasks the
    round began with. *)
Lemma play_accounts (evs : list event) (t : tasks) (w : world) :
  exists t' new,
    fst (play evs t w) = Ok t'
    /\ checks (w_db (snd (play evs t w))) = checks (w_db w)
    /\ results (w_db (snd (play evs t w))) = results (w_db w) ++ new
    /\ Permutation (map r_check_id new ++ task_ids t') (task_ids t).
Proof.
  revert t w. induction evs as [|ev evs IH]; intros t w.
  - exists t, []. cbn. rewrite app_nil_r. auto.
  - assert (Hstop : exists t' new,
               fst (mret t w) = Ok t'
               /\ checks (w_db (snd (mret t w))) = checks (w_db w)
               /\ results (w_db (snd (mret t w))) = results (w_db w) ++ new
               /\ Permutation (map r_check_id new ++ task_ids t') (task_ids t)).
    { exists t, []. cbn. rewrite app_nil_r. auto. }
    cbn [play]. destruct ev as [|k]; cbn [step_round].
    + destruct (waiting t) as [|row rest] eqn:Ew.
      * exact Hstop.
      * cbv beta iota delta [mbind mret now_utc].
        destruct (IH (mk_tasks rest (running t ++ [(row, w_clock w (w_steps w))]))
                     (advance w)) as (t' & new & H1 & H2 & H3 & H4).
        exists t', new. repeat split; try assumption.
        rewrite H4. unfold task_ids. cbn [waiting running].
        rewrite Ew, map_app, <- app_assoc. reflexivity.
    + destruct (nth_error (running t) k) as [[row start]|] eqn:En.
      * cbv beta iota delta [mbind mret].
        destruct (probe_settle_run w (c_id row) start (c_url row))
          as (Hok & (new0 & Hnew0 & Hid) & Hchecks).
        destruct (probe_settle (c_id row) start (c_url row) w) as [res w1].
        cbn [fst snd] in Hok, Hnew0, Hchecks. subst res.
        destruct (IH (mk_tasks (waiting t) (remove_nth k (running t))) w1)
          as (t' & new & H1 & H2 & H3 & H4).
        exists t', (new0 :: new). split; [exact H1|].
        split; [congruence|]. split.
        -- rewrite H3, Hnew0, <- app_assoc. reflexivity.
        -- cbn [map app]. rewrite Hid, H4. unfold task_ids.
           cbn [waiting running].
           rewrite (Permutation_map (fun x => c_id (fst x))
                      (remove_nth_perm k (running t) (row, start) En)).
           reflexivity.
      * exact Hstop.
Qed.

(** X21. A round of probes under any interleaving of starts and settlings
    never fails and leaves the registry alone; the rows it writes belong to
    distinct tasks of the round, and once every task has settled it has
    written exactly one row per registered target. *)
Theorem gather_round_one_row_per_target (evs : list event) (w : world) :
  exists settled new,
    fst (gather_round evs w) = Ok settled
    /\ checks (w_db (snd (gather_round evs w))) = checks (w_db w)
    /\ results (w_db (snd (gather_round evs w))) = results (w_db w) ++ new
    /\ if settled
       then Permutation (map r_check_id new) (map c_id (checks (w_db w)))
       else exists unsettled,
           unsettled <> []
           /\ Permutation (map r_check_id new ++ unsettled)
                          (map c_id (checks (w_db w))).
Proof.
  destruct (play_accounts evs (mk_tasks (checks (w_db w)) []) w)
    as (t' & new & H1 & H2 & H3 & H4).
  cbv beta iota delta [gather_round select_all_checks mbind get_db mret].
  destruct (play evs _ w) as [res w']. cbn [fst snd] in *. subst res.
  cbn [fst snd]. unfold task_ids in H4. cbn [waiting running map app] in H4.
  eexists; exists new. split; [reflexivity|].
  split; [exact H2|]. split; [exact H3|].
  destruct (waiting t') as [|a l] eqn:Ew, (running t') as [|b l'] eqn:Er;
    cbn [map app] in H4.
  - now rewrite app_nil_r in H4.
  - eexists. split; [|exact H4]. discriminate.
  - eexists. split; [|exact H4]. discriminate.
  - eexists. split; [|exact H4]. discriminate.
Qed.

(** Taking the probes one after the other is one of the interleavings, it
    settles every task and does what [monitor_tick] does. *)
Lemma play_sequential (rows : list check_row) (w : world) :
  fst (play (schedule_sequential (length rows)) (mk_tasks rows []) w)
  = Ok (mk_tasks [] [])
  /\ snd (play (schedule_sequential (length rows)) (mk_tasks rows []) w)
     = snd (for_each rows (fun row => check_once (c_id row) (c_url row)) w).
Proof.
  revert w. induction rows as [|row rest IH]; intros w.
  - split; reflexivity.
  - cbn [length repeat schedule_sequential concat app play step_round
         waiting running for_each].
    cbv beta iota delta [mbind mret now_utc].
    rewrite check_once_split.
    cbv beta iota delta [mbind mret now_utc].
    cbn [app nth_error remove_nth waiting running c_id c_url fst snd].
    destruct (probe_settle_run (advance w) (c_id row)
                (w_clock w (w_steps w)) (c_url row)) as (Hok & _).
    destruct (probe_settle (c_id row) (w_clock w (w_steps w)) (c_url row)
                           (advance w)) as [res w1].
    cbn [fst] in Hok. subst res.
    destruct (IH w1) as [H1 H2].
    fold (schedule_sequential (length rest)).
    split; [exact H1|]. rewrite H2.
    now destruct (for_each rest _ w1) as [[bs|e] w2].
Qed.

Lemma gather_round_sequential (w : world) :
  fst (gather_round (schedule_sequential (length (checks (w_db w)))) w)
  = Ok true
  /\ snd (gather_round (schedule_sequential (length (checks (w_db w)))) w)
     = snd (monitor_tick w).
Proof.
  destruct (play_sequential (checks (w_db w)) w) as [H1 H2].
  cbv beta iota delta
      [gather_round monitor_tick select_all_checks mbind get_db mret].
  destruct (play _ _ w) as [res w1]. cbn [fst snd] in H1, H2. subst res w1.
  cbn [waiting running fst snd].
  split; [reflexivity|].
  now destruct (for_each _ _ w) as [[bs|e] w2].
Qed.

(** ** Time: what a clock that never goes back gives *)

Lemma clock_monotone_le (clock : nat -> Z) (a b : nat) :
  clock_monotone clock -> (a <= b)%nat -> (clock a <= clock b)%Z.
Proof.
  intros Hm. induction 1 as [|b Hab IH]; [lia|].
  specialize (Hm b). lia.
Qed.

Lemma StronglySorted_snoc {A : Type} (R : A -> A -> Prop) (l : list A) (x : A) :
  StronglySorted R l -> Forall (fun a => R a x) l ->
  StronglySorted R (l ++ [x]).
Proof.
  induction 1 as [|a l Hl IH Ha]; intros Hx; cbn [app].
  - constructor; constructor.
  - inversion Hx as [|? ? Hax Hlx]; subst.
    constructor; [now apply IH|].
    apply Forall_app. split; [exact Ha | now constructor].
Qed.

Lemma elapsed_nonneg (start finish : Z) :
  (start <= finish)%Z -> 0 <= elapsed_ms_between start finish.
Proof.
  intros H. unfold elapsed_ms_between.
  assert (Hd : 0 <= inject_Z (finish - start)).
  { change 0 with (inject_Z 0). rewrite <- Zle_Qle. lia. }
  assert (E : inject_Z (finish - start) / 1000000 * 1000
              == inject_Z (finish - start) * (1 # 1000)) by field.
  rewrite E. lra.
Qed.

Lemma advance_time_ok (w : world) : time_ok w -> time_ok (advance w).
Proof.
  intros (Hm & Hs & Hb & Hl). repeat split; try assumption.
  cbn [advance w_db w_steps w_clock].
  eapply Forall_impl; [|exact Hb]. cbn beta. intros r Hr n Hn.
  apply Hr. lia.
Qed.

Lemma insert_check_time_ok (w : world) (u : string) :
  time_ok w -> time_ok (snd (insert_check u w)).
Proof.
  intros H. destruct (known (w_db w) u) eqn:E.
  - destruct (insert_check_known w u E) as (row & _ & _ & ->).
    now apply advance_time_ok.
  - rewrite (insert_check_new w u E).
    apply advance_time_ok in H. exact H.
Qed.

(** The time facts of one more row written at reading [k]. *)
Lemma time_ok_snoc (w : world) (db' : database) (row : result_row) (k : nat) :
  time_ok w ->
  (w_steps w <= k)%nat ->
  results db' = results (w_db w) ++ [row] ->
  r_ts row = w_clock w k ->
  latency_nonneg row ->
  time_ok (mk_world db' (S k) (w_clock w) (w_http w) (w_url_ok w)).
Proof.
  intros (Hm & Hs & Hb & Hl) Hk Hres Hts Hlat.
  unfold time_ok; cbn [w_db w_steps w_clock]. rewrite Hres.
  rewrite Forall_forall in Hb.
  split; [exact Hm|]. split; [|split].
  - apply StronglySorted_snoc; [exact Hs|].
    apply Forall_forall. intros r Hr. unfold by_row_ts. rewrite Hts.
    apply (Hb r Hr). lia.
  - apply Forall_app. split.
    + apply Forall_forall. intros r Hr n Hn. apply (Hb r Hr). lia.
    + constructor; [|constructor]. intros n Hn. rewrite Hts.
      apply clock_monotone_le; [exact Hm | lia].
  - apply Forall_app. split; [exact Hl | now repeat constructor].
Qed.

Lemma check_once_time_ok (w : world) (check_id : Z) (u : string) :
  time_ok w -> time_ok (snd (check_once check_id u w)).
Proof.
  intros H. pose proof H as (Hm & _).
  unfold check_once, try_except, mbind, now_utc, client_get, insert_result,
    execute_insert_result, advance, with_db; simpl.
  destruct (w_http w (S (w_steps w)) u) as [status_code|msg]; simpl.
  - eapply (time_ok_snoc w _ _ (S (S (S (w_steps w))))); eauto.
    + reflexivity.
    + reflexivity.
    + unfold latency_nonneg; cbn [r_elapsed_ms].
      apply elapsed_nonneg. apply clock_monotone_le; [exact Hm | lia].
  - eapply (time_ok_snoc w _ _ (S (S (w_steps w)))); eauto.
    + reflexivity.
    + reflexivity.
    + exact I.
Qed.

Lemma run_world_invariant (P : world -> Prop) :
  (forall w u, P w -> P (snd (insert_check u w))) ->
  (forall w check_id u, P w -> P (snd (check_once check_id u w))) ->
  (forall w, P w -> P (advance w)) ->
  forall history w, P w -> P (run history w).
Proof.
  intros Hreg Hprobe Hadv history. unfold run.
  induction history as [|rq history IH]; intros w Hw; cbn [fold_left].
  - exact Hw.
  - apply IH. destruct rq as [u|check_id u| |]; cbn [handle].
    + rewrite api_add_check_world. now apply Hreg.
    + now apply Hprobe.
    + destruct (for_each_invariant P
                  (fun row => check_once (c_id row) (c_url row))
                  (checks (w_db w))) with (w := w) as [_ HP].
      * intros a w0 H0. split; [|now apply Hprobe].
        exists tt. apply check_once_run.
      * exact Hw.
      * revert HP.
        cbv beta iota delta [monitor_tick select_all_checks mbind get_db mret].
        destruct (for_each _ _ w) as [[bs|e] w']; cbn [snd]; auto.
    + rewrite api_status_world. now apply Hadv.
Qed.

Lemma order_by_ts_of_sorted (l : list result_view) :
  StronglySorted by_ts l -> order_by_ts l = l.
Proof.
  induction 1 as [|x l Hl IH Hx]; [reflexivity|].
  cbn [order_by_ts]. rewrite IH.
  destruct l as [|y l']; [reflexivity|].
  cbn [insert_by_ts]. inversion Hx as [|? ? Hxy _]; subst.
  unfold by_ts in Hxy. apply Z.leb_le in Hxy. now rewrite Hxy.
Qed.

Lemma sorted_views_of_window (db : database) (check_id since : Z) :
  StronglySorted by_row_ts (results db) ->
  StronglySorted by_ts (map view_of (window db check_id since)).
Proof.
  unfold window. induction 1 as [|r l Hl IH Hr]; [constructor|].
  cbn [filter]. destruct (in_window check_id since r); [|exact IH].
  cbn [map]. constructor; [exact IH|].
  apply Forall_forall. intros v Hv.
  apply in_map_iff in Hv as (r' & <- & Hr').
  apply filter_In in Hr' as [Hr' _].
  rewrite Forall_forall in Hr. exact (Hr r' Hr').
Qed.

(** X22. With a clock that never goes back, after any history from an
    empty database the results are stored in ascending order of timestamp,
    no stored latency is negative, and the ordering clause of the windowed
    read changes nothing: it returns the rows of the window in the order
    they were written. *)
Theorem timestamps_follow_the_clock (clock : nat -> Z)
    (http : nat -> string -> http_outcome) (url_ok : string -> bool)
    (history : list request) :
  clock_monotone clock ->
  let db := w_db (run history (initial clock http url_ok)) in
  StronglySorted by_row_ts (results db)
  /\ Forall latency_nonneg (results db)
  /\ forall check_id since,
      select_since db check_id since = map view_of (window db check_id since).
Proof.
  intros Hm db.
  assert (H : time_ok (run history (initial clock http url_ok))).
  { apply (run_world_invariant time_ok).
    - intros w u. apply insert_check_time_ok.
    - intros w check_id u. apply check_once_time_ok.
    - apply advance_time_ok.
    - unfold time_ok, initial; cbn. repeat split; try constructor.
      exact Hm. }
  destruct H as (_ & Hs & _ & Hl). fold db in Hs, Hl.
  split; [exact Hs|]. split; [exact Hl|].
  intros check_id since. unfold select_since.
  apply order_by_ts_of_sorted.
  now apply sorted_views_of_window.
Qed.

Lemma clock_ms_monotone : clock_monotone clock_ms.
Proof. intros n. unfold clock_ms. lia. Defined.

Lemma timestamps_follow_the_clock_witness :
  StronglySorted by_row_ts (results (w_db flaky_world))
  /\ Forall latency_nonneg (results (w_db flaky_world))
  /\ forall check_id since,
      select_since (w_db flaky_world) check_id since
      = map view_of (window (w_db flaky_world) check_id since).
Proof.
  apply (timestamps_follow_the_clock clock_ms http_flaky short_url history_flaky).
  exact clock_ms_monotone.
Defined.

(** ** Probe Executor: the stored error text *)

Lemma str_prefix_length_min (n : nat) (s : string) :
  String.length (str_prefix n s) = Nat.min n (String.length s).
Proof.
  revert s. induction n as [|n IH]; intros [|c s]; cbn; try reflexivity.
  now rewrite IH.
Qed.

(** X23. When the request raises, the message is stored whole if it has at
    most 300 characters, and cut to exactly its first 300 characters
    otherwise. *)
Theorem error_text_is_kept_or_cut (w : world) (check_id : Z) (u msg : string) :
  w_http w (S (w_steps w)) u = Failed msg ->
  exists row stored,
    results (w_db (snd (check_once check_id u w))) = results (w_db w) ++ [row]
    /\ r_error row = Some stored
    /\ String.prefix stored msg = true
    /\ if (String.length msg <=? 300)%nat
       then stored = msg
       else String.length stored = 300%nat.
Proof.
  intros Hf.
  destruct (check_once_run w check_id u) as (_ & Hdb & _).
  exists (probe_row w check_id u), (str_prefix 300 msg).
  rewrite Hdb. cbn [results]. unfold probe_row. rewrite Hf.
  cbn [r_error].
  split; [reflexivity|]. split; [reflexivity|].
  split; [apply str_prefix_is_prefix|].
  destruct (String.length msg <=? 300)%nat eqn:E.
  - apply Nat.leb_le in E. now apply str_prefix_short.
  - apply Nat.leb_gt in E. rewrite str_prefix_length_min. lia.
Qed.

Lemma error_text_is_kept_or_cut_witness :
  exists row stored,
    results (w_db (snd (check_once 1 "u" (initial clock_ms http_down short_url))))
    = results (w_db (initial clock_ms http_down short_url)) ++ [row]
    /\ r_error row = Some stored
    /\ String.prefix stored "All connection attempts failed" = true
    /\ if (String.length "All connection attempts failed" <=? 300)%nat
       then stored = "All connection attempts failed"%string
       else String.length stored = 300%nat.
Proof.
  apply (error_text_is_kept_or_cut (initial clock_ms http_down short_url) 1 "u").
  reflexivity.
Defined.

(** ** Status Aggregator: what enters the uptime and the p95 *)

Lemma latencies_of_app (l l' : list result_view) :
  latencies_of (l ++ l') = latencies_of l ++ latencies_of l'.
Proof. unfold latencies_of. apply flat_map_app. Qed.

Lemma latencies_of_select (db : database) (check_id since : Z) :
  Permutation (latencies_of (select_since db check_id since))
              (latencies_of (map view_of (window db check_id since))).
Proof.
  unfold latencies_of. apply Permutation_flat_map. apply order_by_ts_perm.
Qed.

(** X24. Only successful probes feed the p95: after a probe, the latency
    samples of its target inside a window are those from before plus the
    latency of the new row when that row is a success inside the window; a
    failed probe, also one that completed with a status code and a latency,
    adds nothing. *)
Theorem probe_latency_samples (w : world) (check_id since : Z) (u : string) :
  let db := w_db w in
  let db' := w_db (snd (check_once check_id u w)) in
  exists row,
    results db' = results db ++ [row]
    /\ Permutation
         (latencies_of (select_since db' check_id since))
         (latencies_of (select_since db check_id since)
          ++ match r_elapsed_ms row with
             | Some e =>
               if ((r_ok row =? 1) && (since <=? r_ts row))%Z then [e] else []
             | None => []
             end).
Proof.
  intros db db'.
  destruct (check_once_run w check_id u) as (_ & Hdb & _).
  assert (Hres : results db' = results db ++ [probe_row w check_id u]).
  { subst db'. now rewrite Hdb. }
  exists (probe_row w check_id u). split; [exact Hres|].
  rewrite (latencies_of_select db'), (latencies_of_select db).
  rewrite (window_snoc db db' _ check_id since Hres), map_app,
    latencies_of_app.
  apply Permutation_app_head.
  assert (Hid : r_check_id (probe_row w check_id u) = check_id).
  { unfold probe_row. now destruct (w_http w (S (w_steps w)) u). }
  assert (Hok : r_ok (probe_row w check_id u) = 0%Z
                \/ r_ok (probe_row w check_id u) = 1%Z).
  { unfold probe_row. destruct (w_http w (S (w_steps w)) u) as [sc|m];
      cbn [r_ok]; [destruct ((200 <=? sc) && (sc <? 400))%Z|]; auto. }
  unfold in_window. rewrite Hid, Z.eqb_refl. cbn [andb].
  set (row := probe_row w check_id u) in *.
  destruct (since <=? r_ts row)%Z; cbn [map latencies_of flat_map app];
    destruct Hok as [E|E]; rewrite ?E; cbn [view_of v_ok v_elapsed_ms];
    rewrite ?E; cbn [Z.eqb andb];
    destruct (r_elapsed_ms row); cbn [app]; try rewrite andb_false_r;
    reflexivity.
Qed.

Lemma sum_ok_bounds (rows : list result_view) :
  flags_valid rows ->
  (0 <= sum_ok rows <= len rows)%Z
  /\ (sum_ok rows = len rows <-> Forall (fun v => v_ok v = 1%Z) rows)
  /\ (sum_ok rows = 0%Z <-> Forall (fun v => v_ok v = 0%Z) rows).
Proof.
  unfold len.
  induction 1 as [|v l Hv Hl (IH1 & IH2 & IH3)].
  - cbn. repeat split; auto; lia.
  - rewrite sum_ok_cons. cbn [length]. rewrite Nat2Z.inj_succ.
    split; [destruct Hv as [-> | ->]; lia|]. split.
    + split.
      * intros E. destruct Hv as [Hv|Hv]; rewrite Hv in E; [lia|].
        constructor; [exact Hv | apply IH2; lia].
      * intros HF. inversion HF as [|? ? Hv1 Hl1]; subst.
        apply IH2 in Hl1. lia.
    + split.
      * intros E. destruct Hv as [Hv|Hv]; rewrite Hv in E; [|lia].
        constructor; [exact Hv | apply IH3; lia].
      * intros HF. inversion HF as [|? ? Hv0 Hl0]; subst.
        apply IH3 in Hl0. lia.
Qed.

(** X25. On a non-empty window of rows with proper flags the uptime is
    100 exactly when every probe succeeded and 0 exactly when every probe
    failed; it never leaves [0,100]. *)
Theorem uptime_extremes (rows : list result_view) :
  rows <> [] -> flags_valid rows ->
  exists up,
    uptime_of rows = Ok up
    /\ 0 <= up <= 100
    /\ (up == 100 <-> Forall (fun v => v_ok v = 1%Z) rows)
    /\ (up == 0 <-> Forall (fun v => v_ok v = 0%Z) rows).
Proof.
  intros Hne Hv.
  destruct (uptime_of_total rows) as (up & Hup & Heq).
  destruct (sum_ok_bounds rows Hv) as (Hb & Hall & Hnone).
  exists up. split; [exact Hup|].
  destruct rows as [|v l]; [congruence|].
  set (n := inject_Z (len (v :: l))) in *.
  set (k := inject_Z (sum_ok (v :: l))) in *.
  assert (Hn : 0 < n).
  { subst n. change 0 with (inject_Z 0). rewrite <- Zlt_Qlt.
    unfold len. cbn [length]. lia. }
  assert (Hk : 0 <= k /\ k <= n).
  { subst k n. change 0 with (inject_Z 0). rewrite <- !Zle_Qle. exact Hb. }
  assert (Hmul : up * n == 100 * k).
  { rewrite Heq. field. lra. }
  split; [split; nra|]. split.
  - rewrite <- Hall. split.
    + intros E. apply inject_Z_injective. fold k n. nra.
    + intros E. apply (f_equal inject_Z) in E. fold k n in E.
      rewrite E in Hmul. nra.
  - rewrite <- Hnone. split.
    + intros E. apply inject_Z_injective. fold k.
      change (inject_Z 0) with 0. nra.
    + intros E. apply (f_equal inject_Z) in E. fold k in E.
      change (inject_Z 0) with 0 in E. rewrite E in Hmul. nra.
Qed.

Lemma uptime_extremes_witness :
  exists up,
    uptime_of ten_rows = Ok up
    /\ 0 <= up <= 100
    /\ (up == 100 <-> Forall (fun v => v_ok v = 1%Z) ten_rows)
    /\ (up == 0 <-> Forall (fun v => v_ok v = 0%Z) ten_rows).
Proof.
  apply (uptime_extremes ten_rows); [discriminate|].
  unfold flags_valid, ten_rows; cbn [map app].
  repeat (constructor; [cbn; auto|]). constructor.
Defined.

(** ** Percentile Estimator: the order of the samples does not matter *)

Lemma Forall2_Qeq_refl (l : list Q) : Forall2 Qeq l l.
Proof. induction l; constructor; [reflexivity | assumption]. Qed.

Lemma Forall2_Qeq_trans (l1 l2 l3 : list Q) :
  Forall2 Qeq l1 l2 -> Forall2 Qeq l2 l3 -> Forall2 Qeq l1 l3.
Proof.
  intros H. revert l3. induction H as [|a b l1 l2 Hab _ IH]; intros l3 H3.
  - exact H3.
  - inversion H3 as [|? c ? l3' Hbc Hl3]; subst.
    constructor; [now rewrite Hab | now apply IH].
Qed.

Lemma Qle_bool_comp (a a' b b' : Q) :
  a == a' -> b == b' -> Qle_bool a b = Qle_bool a' b'.
Proof.
  intros Ha Hb.
  destruct (Qle_bool a b) eqn:E1, (Qle_bool a' b') eqn:E2; try reflexivity.
  - apply Qle_bool_true in E1. apply Qle_bool_false in E2. lra.
  - apply Qle_bool_false in E1. apply Qle_bool_true in E2. lra.
Qed.

Lemma insert_sorted_Qeq (x x' : Q) (s s' : list Q) :
  x == x' -> Forall2 Qeq s s' ->
  Forall2 Qeq (insert_sorted x s) (insert_sorted x' s').
Proof.
  intros Hx. induction 1 as [|y y' s s' Hy Hs IH]; cbn [insert_sorted].
  - now repeat constructor.
  - rewrite (Qle_bool_comp x x' y y' Hx Hy).
    destruct (Qle_bool x' y'); repeat (constructor; try assumption).
Qed.

Lemma insert_sorted_swap (x y : Q) (s : list Q) :
  Forall2 Qeq (insert_sorted x (insert_sorted y s))
              (insert_sorted y (insert_sorted x s)).
Proof.
  induction s as [|z s IH]; cbn [insert_sorted].
  - destruct (Qle_bool x y) eqn:E1, (Qle_bool y x) eqn:E2;
      cbn [insert_sorted]; rewrite ?E1, ?E2;
      try apply Forall2_Qeq_refl.
    + apply Qle_bool_true in E1. apply Qle_bool_true in E2.
      assert (x == y) by lra.
      repeat constructor; [assumption | now symmetry].
    + apply Qle_bool_false in E1. apply Qle_bool_false in E2. lra.
  - destruct (Qle_bool y z) eqn:Eyz, (Qle_bool x z) eqn:Exz;
      cbn [insert_sorted];
      destruct (Qle_bool x y) eqn:Exy, (Qle_bool y x) eqn:Eyx;
      rewrite ?Eyz, ?Exz;
      try (constructor; [reflexivity|]);
      try apply Forall2_Qeq_refl; try exact IH;
      repeat match goal with
             | H : Qle_bool _ _ = true |- _ => apply Qle_bool_true in H
             | H : Qle_bool _ _ = false |- _ => apply Qle_bool_false in H
             end;
      try lra;
      try (assert (x == y) by lra;
           constructor; [assumption|];
           constructor; [now symmetry | apply Forall2_Qeq_refl]).
Qed.

Lemma sorted_perm_Qeq (l l' : list Q) :
  Permutation l l' -> Forall2 Qeq (sorted l) (sorted l').
Proof.
  induction 1 as [|x l l' _ IH|x y l|l1 l2 l3 _ IH1 _ IH2]; cbn [sorted].
  - constructor.
  - apply insert_sorted_Qeq; [reflexivity | exact IH].
  - apply insert_sorted_swap.
  - now apply Forall2_Qeq_trans with (sorted l2).
Qed.

(** ** Registration and listing endpoints: answers *)

Lemma Forall2_same {A : Type} (l l' : list A) :
  Forall2 (fun a b => b = a) l l' -> l' = l.
Proof. induction 1; congruence. Qed.

Lemma api_list_checks_cases (w : world) :
  api_list_checks w
  = (if urls_ok w then Ok (checks (w_db w)) else Raise ValidationError, w).
Proof.
  pose proof (for_each_checked CheckOut (fun r => w_url_ok w (c_url r))
                (fun a b => b = a) ValidationError w (checks (w_db w))) as H.
  unfold urls_ok. rewrite forallb_map.
  cbv beta iota delta [api_list_checks select_all_checks mbind get_db mret].
  destruct (forallb _ (checks (w_db w))).
  - destruct H as (bs & -> & HF).
    + intros r _. rewrite CheckOut_run.
      destruct (w_url_ok w (c_url r)); eauto.
    + now rewrite (Forall2_same _ _ HF).
  - apply H. intros r _. rewrite CheckOut_run.
    destruct (w_url_ok w (c_url r)); eauto.
Qed.

Lemma check_once_url_ok (w : world) (check_id : Z) (url : string) :
  w_url_ok (snd (check_once check_id url w)) = w_url_ok w.
Proof.
  unfold check_once, try_except, mbind, now_utc, client_get, insert_result,
    execute_insert_result, probe_row, advance, with_db; simpl.
  destruct (w_http w (S (w_steps w)) url) as [status_code|msg]; simpl.
  - now destruct ((200 <=? status_code) && (status_code <? 400))%Z.
  - reflexivity.
Qed.

Lemma run_url_ok (history : list request) (w : world) :
  w_url_ok (run history w) = w_url_ok w.
Proof.
  apply (run_world_invariant (fun w' => w_url_ok w' = w_url_ok w)).
  - intros w0 u H. now rewrite insert_check_url_ok.
  - intros w0 check_id u H. now rewrite check_once_url_ok.
  - intros w0 H. exact H.
  - reflexivity.
Qed.

Lemma urls_ok_after_insert (w : world) (u : string) :
  urls_ok (snd (insert_check u w)) = urls_ok w && w_url_ok w u.
Proof.
  destruct (known (w_db w) u) eqn:E.
  - destruct (insert_check_known w u E) as (row & Hin & Hu & ->).
    cbn [snd]. unfold urls_ok; cbn [advance w_db w_url_ok].
    destruct (forallb (w_url_ok w) (map c_url (checks (w_db w)))) eqn:F;
      [|reflexivity].
    rewrite forallb_forall in F. symmetry. apply F.
    rewrite <- Hu. now apply in_map.
  - rewrite (insert_check_new w u E). cbn [snd].
    unfold urls_ok; cbn [with_db advance w_db w_url_ok checks].
    rewrite map_app, forallb_app. cbn [map forallb c_url].
    now rewrite andb_true_r.
Qed.

Lemma insert_check_extends (w : world) (u : string) :
  exists new,
    checks (w_db (snd (insert_check u w))) = checks (w_db w) ++ new
    /\ (length new <= 1)%nat.
Proof.
  destruct (known (w_db w) u) eqn:E.
  - destruct (insert_check_known w u E) as (r0 & _ & _ & ->).
    exists []. cbn [snd advance w_db length].
    split; [now rewrite app_nil_r | lia].
  - rewrite (insert_check_new w u E). eexists.
    cbn [snd with_db w_db checks]. split; [reflexivity | cbn; lia].
Qed.




(** ** Status Aggregator: the claim *)

Lemma Forall2_Qeq_nth (s s' : list Q) (i : nat) :
  Forall2 Qeq s s' -> nth i s 0 == nth i s' 0.
Proof.
  intros H. revert i.
  induction H as [|a b s s' Hab _ IH]; intros [|i]; cbn [nth];
    try reflexivity; auto.
Qed.

Lemma interpolate_comp (s s' : list Q) (k k' : Q) :
  Forall2 Qeq s s' -> k == k' -> interpolate s k == interpolate s' k'.
Proof.
  intros Hs Hk. unfold interpolate.
  rewrite <- (Qfloor_comp _ _ Hk), <- (Qceiling_comp _ _ Hk).
  pose proof (Forall2_Qeq_nth s s' (Z.to_nat (Qfloor k)) Hs) as Hf.
  pose proof (Forall2_Qeq_nth s s' (Z.to_nat (Qceiling k)) Hs) as Hc.
  destruct (Qfloor k =? Qceiling k)%Z; [exact Hf|].
  revert Hf Hc.
  generalize (nth (Z.to_nat (Qfloor k)) s 0), (nth (Z.to_nat (Qfloor k)) s' 0),
    (nth (Z.to_nat (Qceiling k)) s 0), (nth (Z.to_nat (Qceiling k)) s' 0),
    (inject_Z (Qfloor k)), (inject_Z (Qceiling k)).
  intros a a' b b' f c Ha Hb. rewrite Ha, Hb, Hk. reflexivity.
Qed.

Lemma percentile_spec_value (samples : list Q) (p : Q) :
  samples <> [] ->
  exists v, percentile_spec samples p = Some v
            /\ v == interpolate (sorted samples) (rank (length samples) p).
Proof.
  intros Hne. destruct samples as [|x l]; [congruence|].
  eexists. split; [reflexivity|]. cbv zeta.
  set (s := sorted (x :: l)).
  assert (Hk : inject_Z (Z.of_nat (length (x :: l)) - 1) * p / 100
               == rank (length (x :: l)) p).
  { unfold rank. field. }
  unfold interpolate.
  rewrite (Qfloor_comp _ _ Hk), (Qceiling_comp _ _ Hk).
  destruct (Qfloor _ =? Qceiling _)%Z; [reflexivity|].
  now rewrite Hk.
Qed.

(** The estimator of the code on one order of the samples agrees with the
    estimator of the specification on any other. *)
Lemma percentile_is_specified (l l' : list Q) (p : Q) :
  0 <= p <= 100 -> Permutation l l' ->
  match percentile l p, percentile_spec l' p with
  | Ok (Some a), Some b => a == b
  | Ok None, None => True
  | _, _ => False
  end.
Proof.
  intros Hp Hperm. destruct l as [|x l].
  - apply Permutation_nil in Hperm. subst l'. exact I.
  - assert (Hne : x :: l <> []) by discriminate.
    assert (Hne' : l' <> []).
    { intros ->. apply Permutation_sym, Permutation_nil in Hperm.
      discriminate. }
    rewrite (percentile_value _ p Hne Hp).
    destruct (percentile_spec_value l' p Hne') as (v & -> & Hv).
    rewrite Hv. apply interpolate_comp.
    + now apply sorted_perm_Qeq.
    + now rewrite (Permutation_length Hperm).
Qed.

Lemma computed_is_aggregated (db : database) (now : Z) (r : check_row)
      (item : StatusItem) :
  ok_valid (results db) ->
  snapshot_computed db now r item -> snapshot_aggregated db now r item.
Proof.
  intros Hv (up24 & up7 & p95 & H24 & H7 & Hp & ->).
  unfold snapshot_aggregated.
  change (window_spec db (c_id r) (now - day_us))
    with (window db (c_id r) (now - hours_24)).
  change (window_spec db (c_id r) (now - 7 * day_us))
    with (window db (c_id r) (now - days_7)).
  cbn [url total_samples_24h uptime_24h uptime_7d p95_ms_24h].
  destruct (select_since_facts db (c_id r) (now - hours_24) Hv)
    as (Hlen & _ & Hperm).
  pose proof (uptime_of_spec db (c_id r) _ up24 Hv H24) as E24.
  pose proof (uptime_of_spec db (c_id r) _ up7 Hv H7) as E7.
  split; [reflexivity|]. split; [exact Hlen|].
  split.
  { split; [apply py_round_has_decimals|].
    pose proof (py_round_2_near up24) as Hn. unfold near. lra. }
  split.
  { split; [apply py_round_has_decimals|].
    pose proof (py_round_2_near up7) as Hn. unfold near. lra. }
  split.
  { assert (H95 : 0 <= 95 <= 100) by lra.
    pose proof (percentile_is_specified _ _ 95 H95 Hperm) as Hs.
    rewrite Hp in Hs.
    destruct p95 as [a|],
      (percentile_spec
         (success_latencies (window db (c_id r) (now - hours_24))) 95)
      as [b|]; cbn [option_map]; try contradiction; [|exact I].
    split; [apply py_round_has_decimals|].
    pose proof (py_round_1_near a) as Hn. unfold near. lra. }
  destruct (no_history db r) eqn:Hno; [|exact I].
  unfold select_since in H24, H7, Hp |- *.
  fold (window db (c_id r) (now - hours_24)) in H24, Hp |- *.
  fold (window db (c_id r) (now - days_7)) in H7.
  rewrite (no_history_window db r (now - hours_24) Hno) in *.
  rewrite (no_history_window db r (now - days_7) Hno) in *.
  cbn in H24, H7, Hp.
  assert (up24 = 0) by congruence. assert (up7 = 0) by congruence.
  assert (p95 = None) by congruence. subst up24 up7 p95.
  unfold zero_snapshot; cbn [uptime_24h uptime_7d p95_ms_24h
    total_samples_24h score grade option_map].
  split; [vm_compute; reflexivity|].
  split; [vm_compute; reflexivity|].
  split; [reflexivity|].
  split; [reflexivity|].
  split; [vm_compute; reflexivity|].
  reflexivity.
Qed.

(** C7. On a database whose rows were written by the service, the snapshot
    of a target is generated without failure whenever the response model
    accepts the target's URL, and [ValidationError] is raised otherwise; the
    status query returns a snapshot per registered target, in order, when
    every registered URL is accepted.  In a generated snapshot the sample
    count is the number of stored rows of the target at or after the cutoff
    of 24 hours; each displayed uptime has two decimals and is within 0.005
    of 100 times the successful rows over all the stored rows of its window
    (24 hours, 7 days), of 0 on an empty window; the p95 is absent exactly
    when the 24h window has no successful row with an elapsed time, and
    otherwise has one decimal and is within 0.05 of the interpolated
    percentile 95 of the elapsed times of the successful rows of the 24h
    window only; a target without stored rows gets uptime 0 on both
    windows, no p95, sample count 0, score 0 and grade "F". *)
Theorem status_aggregation (w : world) :
  db_ok (w_db w) ->
  (forall now r,
      if w_url_ok w (c_url r)
      then exists item,
          status_of now r w = (Ok item, w)
          /\ snapshot_aggregated (w_db w) now r item
      else status_of now r w = (Raise ValidationError, w))
  /\ (urls_ok w = true ->
      exists items,
        fst (api_status w) = Ok items
        /\ Forall2 (snapshot_aggregated (w_db w) (w_clock w (w_steps w)))
                   (checks (w_db w)) items).
Proof.
  intros (_ & _ & _ & _ & Hv). split.
  - intros now r.
    destruct (status_of_run now r w) as (up24 & up7 & p95 & H24 & H7 & Hp & Hrun).
    rewrite Hrun. destruct (w_url_ok w (c_url r)); [|reflexivity].
    eexists. split; [reflexivity|].
    apply computed_is_aggregated; [exact Hv|].
    exists up24, up7, p95. auto.
  - intros Hu. destruct (api_status_run w Hu) as (items & Hrun & HF).
    exists items. rewrite Hrun. split; [reflexivity|].
    eapply Forall2_impl; [|exact HF].
    intros r item. now apply computed_is_aggregated.
Qed.

Lemma status_aggregation_witness :
  (forall now r,
      if w_url_ok flaky_world (c_url r)
      then exists item,
          status_of now r flaky_world = (Ok item, flaky_world)
          /\ snapshot_aggregated (w_db flaky_world) now r item
      else status_of now r flaky_world = (Raise ValidationError, flaky_world))
  /\ (urls_ok flaky_world = true ->
      exists items,
        fst (api_status flaky_world) = Ok items
        /\ Forall2 (snapshot_aggregated (w_db flaky_world)
                      (w_clock flaky_world (w_steps flaky_world)))
                   (checks (w_db flaky_world)) items).
Proof.
  apply (status_aggregation flaky_world).
  exact (reachable_db_ok clock_ms http_flaky short_url history_flaky).
Defined.

(** ** Scheduler: the loop *)

Lemma insert_check_results (w : world) (u : string) :
  results (w_db (snd (insert_check u w))) = results (w_db w).
Proof.
  destruct (known (w_db w) u) eqn:E.
  - now destruct (insert_check_known w u E) as (row & _ & _ & ->).
  - now rewrite (insert_check_new w u E).
Qed.

Lemma insert_check_listed (w : world) (u : string) :
  In u (urls (w_db (snd (insert_check u w)))).
Proof.
  destruct (insert_check_registers w u) as (id & _ & _ & _ & Hk).
  now apply known_In.
Qed.

Lemma serve_registration (u : string) (w : world) :
  serve (api_add_check u) w = (Ok tt, snd (insert_check u w)).
Proof. unfold serve. now rewrite api_add_check_world. Qed.

Lemma probe_settle_db_ok (w : world) (check_id start : Z) (u : string) :
  db_ok (w_db w) -> db_ok (w_db (snd (probe_settle check_id start u w))).
Proof.
  intros (Hu & Hseq & Hid & Hnd & Hr).
  unfold probe_settle, try_except, mbind, now_utc, client_get, insert_result,
    execute_insert_result, advance, with_db; simpl.
  destruct (w_http w (w_steps w) u) as [status_code|msg]; simpl;
    unfold db_ok, urls, ok_valid; cbn [checks checks_seq results];
    (repeat split; try assumption);
    (apply Forall_app; split; [exact Hr|]);
    (constructor; [|constructor]); cbn [r_ok].
  - destruct ((200 <=? status_code) && (status_code <? 400))%Z; auto.
  - now left.
Qed.

Lemma round_accounts_refl (w : world) (t : tasks) : round_accounts w w t t [].
Proof.
  exists [], []. rewrite !app_nil_r.
  split; [reflexivity|]. split; [reflexivity|]. split; [auto|].
  split; [reflexivity|]. split; [reflexivity|].
  split; [constructor | intros u []].
Qed.

Lemma round_accounts_cons (w w1 w2 : world) (t t1 t2 : tasks) (e : effect)
      (tr : list effect) :
  round_accounts w w1 t t1 [e] -> round_accounts w1 w2 t1 t2 tr ->
  round_accounts w w2 t t2 (e :: tr).
Proof.
  intros (new1 & late1 & Hc1 & Hr1 & Hd1 & Hn1 & Hp1 & Hf1 & Hu1)
         (new2 & late2 & Hc2 & Hr2 & Hd2 & Hn2 & Hp2 & Hf2 & Hu2).
  assert (Hs : settled_in (e :: tr) = settled_in [e] ++ settled_in tr).
  { unfold settled_in. cbn [flat_map]. now rewrite app_nil_r. }
  assert (Hg : registered_in (e :: tr)
               = registered_in [e] ++ registered_in tr).
  { unfold registered_in. cbn [flat_map]. now rewrite app_nil_r. }
  exists (new1 ++ new2), (late1 ++ late2).
  split; [now rewrite Hc2, Hc1, app_assoc|].
  split; [now rewrite Hr2, Hr1, app_assoc|].
  split; [auto|].
  split; [now rewrite map_app, Hn1, Hn2, Hs|].
  split; [now rewrite Hs, <- app_assoc, Hp2|].
  split; [constructor; [now inversion Hf1 | exact Hf2]|].
  intros u Hin. rewrite Hg in Hin. apply in_app_or in Hin as [Hin|Hin].
  - unfold urls. rewrite Hc2, map_app. apply in_or_app. left.
    now apply Hu1.
  - now apply Hu2.
Qed.

(** One event of a round: it cannot happen and nothing changes, or it
    happens and is accounted for. *)
Lemma step_loop_accounts (ev : loop_event) (t : tasks) (w : world) :
  step_loop ev t w = (Ok None, w)
  \/ exists t' e w1,
      step_loop ev t w = (Ok (Some (t', e)), w1)
      /\ round_accounts w w1 t t' [e].
Proof.
  destruct ev as [[|k]|u]; cbn [step_loop step_round].
  - destruct (waiting t) as [|row rest] eqn:Ew; [now left|].
    right. cbv beta iota delta [mbind mret now_utc].
    do 3 eexists. split; [reflexivity|].
    exists [], []. cbn [advance w_db]. rewrite !app_nil_r.
    split; [reflexivity|]. split; [reflexivity|]. split; [auto|].
    split; [reflexivity|]. split.
    + cbn [settled_in flat_map app]. unfold task_ids. cbn [waiting running].
      rewrite Ew, map_app, <- app_assoc. reflexivity.
    + split; [repeat constructor | intros u []].
  - destruct (nth_error (running t) k) as [[row start]|] eqn:En; [|now left].
    right. cbv beta iota delta [mbind mret].
    destruct (probe_settle_run w (c_id row) start (c_url row))
      as (Hok & (new0 & Hnew0 & Hid) & Hchecks).
    pose proof (probe_settle_db_ok w (c_id row) start (c_url row)) as Hdb.
    destruct (probe_settle (c_id row) start (c_url row) w) as [res w1].
    cbn [fst snd] in Hok, Hnew0, Hchecks, Hdb. subst res.
    do 3 eexists. split; [reflexivity|].
    exists [new0], []. rewrite app_nil_r.
    split; [exact Hchecks|]. split; [exact Hnew0|]. split; [exact Hdb|].
    split; [cbn; now rewrite Hid|]. split.
    + cbn [settled_in flat_map app]. unfold task_ids. cbn [waiting running].
      rewrite (Permutation_map (fun x => c_id (fst x))
                 (remove_nth_perm k (running t) (row, start) En)).
      reflexivity.
    + split; [repeat constructor | intros u []].
  - right. cbv beta iota delta [mbind mret]. rewrite serve_registration.
    do 3 eexists. split; [reflexivity|].
    destruct (insert_check_extends w u) as (late & Hlate & _).
    exists [], late. rewrite app_nil_r.
    split; [exact Hlate|]. split; [apply insert_check_results|].
    split; [apply insert_check_db_ok|].
    split; [reflexivity|]. split; [reflexivity|].
    split; [repeat constructor|].
    intros u' [<-|[]]. apply insert_check_listed.
Qed.

Lemma gather_accounts (evs : list loop_event) (t : tasks) (w : world) :
  exists t' tr w',
    gather evs t w = (Ok (t', tr), w') /\ round_accounts w w' t t' tr.
Proof.
  revert t w. induction evs as [|ev evs IH]; intros t w; cbn [gather].
  - exists t, [], w. split; [now destruct (settled t)|].
    apply round_accounts_refl.
  - destruct (settled t).
    { exists t, [], w. split; [reflexivity | apply round_accounts_refl]. }
    cbv beta iota delta [mbind mret].
    destruct (step_loop_accounts ev t w) as [->|(t1 & e & w1 & -> & H1)].
    + exists t, [], w. split; [reflexivity | apply round_accounts_refl].
    + destruct (IH t1 w1) as (t' & tr & w' & -> & H2).
      exists t', (e :: tr), w'. split; [reflexivity|].
      now apply round_accounts_cons with w1 t1.
Qed.

Lemma serve_arrivals_accounts (us : list string) (w : world) :
  fst (serve_arrivals us w) = Ok tt
  /\ exists late,
      checks (w_db (snd (serve_arrivals us w))) = checks (w_db w) ++ late
      /\ results (w_db (snd (serve_arrivals us w))) = results (w_db w)
      /\ (db_ok (w_db w) -> db_ok (w_db (snd (serve_arrivals us w))))
      /\ forall u, In u us -> In u (urls (w_db (snd (serve_arrivals us w)))).
Proof.
  revert w. induction us as [|u us IH]; intros w; cbn [serve_arrivals].
  - split; [reflexivity|]. exists []. rewrite app_nil_r.
    split; [reflexivity|]. split; [reflexivity|].
    split; [auto | intros u []].
  - cbv beta iota delta [mbind mret]. rewrite serve_registration.
    destruct (IH (snd (insert_check u w)))
      as (Hok & late & Hc & Hr & Hd & Hu).
    destruct (insert_check_extends w u) as (late0 & Hlate0 & _).
    split; [exact Hok|]. exists (late0 ++ late).
    split; [now rewrite Hc, Hlate0, app_assoc|].
    split; [now rewrite Hr, insert_check_results|].
    split; [intros H; apply Hd; now apply insert_check_db_ok|].
    intros u' [<-|Hin]; [|now apply Hu].
    unfold urls. rewrite Hc, map_app. apply in_or_app. left.
    apply insert_check_listed.
Qed.

Lemma monitor_loop_body_run (interval : Z) (s : tick_schedule) (w : world) :
  exists t' body w1,
    round_accounts w w1 (mk_tasks (checks (w_db w)) []) t' body
    /\ monitor_loop_body interval s w
       = if settled t'
         then (Ok (Snapshot (checks (w_db w))
                     :: body ++ Slept interval
                                  :: map Registered (during_sleep s),
                   true),
               snd (serve_arrivals (during_sleep s) w1))
         else (Ok (Snapshot (checks (w_db w)) :: body, false), w1).
Proof.
  cbv beta iota delta [monitor_loop_body select_all_checks mbind get_db mret].
  destruct (checks (w_db w)) as [|row rows] eqn:Ec.
  - exists (mk_tasks [] []), [], w.
    split; [apply round_accounts_refl|].
    cbn [settled waiting running fst snd].
    destruct (serve_arrivals_accounts (during_sleep s) w) as (Hok & _).
    destruct (serve_arrivals (during_sleep s) w) as [res w2].
    cbn [fst] in Hok. now subst res.
  - destruct (gather_accounts (during_gather s) (mk_tasks (row :: rows) []) w)
      as (t' & body & w1 & -> & Hacc).
    exists t', body, w1. split; [exact Hacc|].
    cbn [fst snd]. destruct (settled t'); [|reflexivity].
    destruct (serve_arrivals_accounts (during_sleep s) w1) as (Hok & _).
    destruct (serve_arrivals (during_sleep s) w1) as [res w2].
    cbn [fst] in Hok. now subst res.
Qed.

Lemma monitor_loop_total (interval : Z) (ticks : list tick_schedule)
      (w : world) :
  exists trace, fst (monitor_loop interval ticks w) = Ok trace.
Proof.
  revert w. induction ticks as [|s ticks IH]; intros w; cbn [monitor_loop].
  - now exists [].
  - cbv beta iota delta [mbind mret].
    destruct (monitor_loop_body_run interval s w)
      as (t' & body & w1 & _ & ->).
    destruct (settled t'); cbn [fst snd]; [|eexists; reflexivity].
    destruct (IH (snd (serve_arrivals (during_sleep s) w1))) as (rest & Hr).
    destruct (monitor_loop interval ticks _) as [res w2].
    cbn [fst] in Hr. subst res. cbn [fst snd]. eexists; reflexivity.
Qed.

Lemma settled_task_ids (t : tasks) :
  settled t = match task_ids t with [] => true | _ :: _ => false end.
Proof.
  unfold settled, task_ids.
  now destruct (waiting t), (running t).
Qed.

Lemma NoDup_app_disjoint {A : Type} (l l' : list A) (x : A) :
  NoDup (l ++ l') -> In x l -> ~ In x l'.
Proof.
  induction l as [|a l IH]; cbn [app]; intros Hnd Hin; [contradiction|].
  inversion Hnd as [|? ? Hnot Hnd']; subst.
  destruct Hin as [->|Hin]; [|now apply IH].
  intros Hx. apply Hnot. apply in_or_app. now right.
Qed.

Lemma registered_in_app (tr tr' : list effect) :
  registered_in (tr ++ tr') = registered_in tr ++ registered_in tr'.
Proof. unfold registered_in. apply flat_map_app. Qed.

Lemma registered_in_arrivals (us : list string) :
  registered_in (map Registered us) = us.
Proof.
  induction us as [|u us IH]; [reflexivity|].
  unfold registered_in in *. cbn. now rewrite IH.
Qed.

Lemma round_is_specified (interval : Z) (s : tick_schedule)
      (ticks : list tick_schedule) (w : world) :
  db_ok (w_db w) -> round_as_specified interval s ticks w.
Proof.
  intros Hw.
  destruct (monitor_loop_body_run interval s w)
    as (t' & body & w1 & Hacc & Hrun).
  destruct Hacc as (new & late & Hc & Hr & Hd & Hn & Hp & Hf & Hu).
  specialize (Hd Hw).
  pose proof (settled_task_ids t') as Hs.
  unfold task_ids at 2 in Hp. cbn [waiting running map app] in Hp.
  assert (Hsub : forall id, In id (settled_in body) ->
                            In id (map c_id (checks (w_db w)))).
  { intros id Hid. eapply Permutation_in; [exact Hp|].
    apply in_or_app. now left. }
  destruct (serve_arrivals_accounts (during_sleep s) w1)
    as (_ & late2 & Hc2 & Hr2 & Hd2 & Hu2).
  pose proof (monitor_loop_total interval ticks
                (snd (monitor_loop_body interval s w))) as (rest & Hrest).
  unfold round_as_specified.
  destruct (task_ids t') as [|id ids] eqn:Et.
  - (* every probe has settled: the sleep follows *)
    rewrite Hs in Hrun.
    exists body, new, (late ++ late2), [], rest. cbv zeta.
    rewrite Hrun. cbn [fst snd] in *. rewrite Hrun in Hrest. cbn [snd] in Hrest.
    specialize (Hd2 Hd).
    split; [reflexivity|]. split; [exact Hf|]. split; [exact Hp|].
    split; [now rewrite Hr2, Hr|]. split; [exact Hn|].
    split; [now rewrite Hc2, Hc, app_assoc|].
    split.
    { intros r Hin Hid. apply Hsub in Hid. revert Hid.
      apply NoDup_app_disjoint with (l := map c_id (late ++ late2)).
      - destruct Hd2 as (_ & _ & _ & Hnd & _).
        rewrite Hc2, Hc, <- app_assoc, map_app in Hnd.
        eapply Permutation_NoDup; [apply Permutation_app_comm | exact Hnd].
      - now apply in_map. }
    split.
    { intros u Hin.
      change (Snapshot (checks (w_db w))
                :: body ++ Slept interval :: map Registered (during_sleep s))
        with ([Snapshot (checks (w_db w))]
                ++ body ++ [Slept interval]
                ++ map Registered (during_sleep s)) in Hin.
      rewrite !registered_in_app, registered_in_arrivals in Hin.
      cbn [registered_in flat_map app] in Hin.
      apply in_app_or in Hin as [Hin|Hin].
      - unfold urls. rewrite Hc2, map_app. apply in_or_app. left.
        now apply Hu.
      - now apply Hu2. }
    split; [exact Hd2|].
    cbn [monitor_loop]. cbv beta iota delta [mbind mret].
    rewrite Hrun. cbn [fst snd].
    destruct (monitor_loop interval ticks _) as [res w2].
    cbn [fst] in Hrest. subst res. cbn [fst snd].
    split; [|reflexivity].
    now rewrite <- app_comm_cons, <- app_assoc.
  - (* a probe has not settled: the loop is still waiting *)
    rewrite Hs in Hrun.
    exists body, new, late, (id :: ids), []. cbv zeta.
    rewrite Hrun. cbn [fst snd].
    split; [now rewrite app_nil_r|]. split; [exact Hf|]. split; [exact Hp|].
    split; [exact Hr|]. split; [exact Hn|]. split; [exact Hc|].
    split.
    { intros r Hin Hid. apply Hsub in Hid. revert Hid.
      apply NoDup_app_disjoint with (l := map c_id late).
      - destruct Hd as (_ & _ & _ & Hnd & _).
        rewrite Hc, map_app in Hnd.
        eapply Permutation_NoDup; [apply Permutation_app_comm | exact Hnd].
      - now apply in_map. }
    split.
    { intros u Hin. rewrite app_nil_r in Hin.
      change (Snapshot (checks (w_db w)) :: body)
        with ([Snapshot (checks (w_db w))] ++ body) in Hin.
      rewrite registered_in_app in Hin.
      cbn [registered_in flat_map app] in Hin. now apply Hu. }
    split; [exact Hd|].
    cbn [monitor_loop]. cbv beta iota delta [mbind mret].
    rewrite Hrun. cbn [fst snd]. now rewrite !app_nil_r.
Qed.

Lemma probes_are_independent : probes_independent.
Proof.
  split.
  - intros t w row rest Hw. cbn [step_round]. rewrite Hw.
    cbv beta iota delta [mbind mret now_utc]. cbn [fst]. eauto.
  - intros t w k row start Hn. cbn [step_round]. rewrite Hn.
    cbv beta iota delta [mbind mret].
    destruct (probe_settle_run w (c_id row) start (c_url row))
      as (Hok & (new & Hnew & Hid) & _).
    destruct (probe_settle (c_id row) start (c_url row) w) as [res w1].
    cbn [fst snd] in *. subst res. split; [reflexivity|]. eauto.
Qed.

(** C9. Every iteration of [monitor_loop], from a database written by the
    service and under any schedule of probe starts, probe settlings and
    registrations arriving meanwhile, reads the whole registry first and
    never fails.  Its probes are those of that snapshot, one per target:
    each settled probe has written exactly one result row, the settled
    probes and the ones still pending make up the targets of the snapshot,
    and no row is written for a target registered after the snapshot was
    read; such a target is in the registry, which only grows, that the next
    iteration reads.  The loop calls the sleep, for the configured interval,
    exactly when every probe of the snapshot has settled, after all their
    rows are written; while a probe is pending it neither sleeps nor starts
    another iteration.  The probes do not wait for one another: a pending
    probe can settle next whatever the others do and whatever its request
    ends in, and leaves the other tasks as they are.  With three targets,
    one of which hangs until the client gives up, and two registrations
    arriving during the iteration, the iteration writes three rows, two
    successes and a failure, then sleeps, and the next iteration probes the
    five targets. *)
Theorem monitor_loop_rounds (interval : Z) (s : tick_schedule)
    (ticks : list tick_schedule) (w : world) :
  db_ok (w_db w) ->
  round_as_specified interval s ticks w
  /\ probes_independent
  /\ (fst (monitor_loop 60 [hung_schedule; next_schedule] hung_world)
      = Ok ([Snapshot (checks (w_db hung_world));
             Started 1; Started 2; Started 3; Settled 1; Settled 3;
             Registered "https://late.example/"; Settled 2;
             Slept 60; Registered "https://later.example/"]
            ++ Snapshot (checks (w_db (snd (monitor_loop_body
                                              60 hung_schedule hung_world))))
            :: [Started 1; Started 2; Started 3; Started 4; Started 5;
                Settled 5; Settled 4; Settled 3; Settled 2; Settled 1;
                Slept 60])
      /\ urls (w_db hung_world)
         = ["https://a.example/"; "https://hung.example/";
            "https://b.example/"]%string
      /\ urls (w_db (snd (monitor_loop_body 60 hung_schedule hung_world)))
         = ["https://a.example/"; "https://hung.example/";
            "https://b.example/"; "https://late.example/";
            "https://later.example/"]%string
      /\ map (fun r => (r_check_id r, r_ok r, r_status_code r))
             (results (w_db (snd (monitor_loop_body
                                    60 hung_schedule hung_world))))
         = [(1, 1, Some 200); (3, 1, Some 200); (2, 0, None)]%Z).
Proof.
  intros Hw.
  split; [now apply round_is_specified|].
  split; [exact probes_are_independent|].
  split; [vm_compute; reflexivity|].
  split; [vm_compute; reflexivity|].
  split; vm_compute; reflexivity.
Qed.

Lemma monitor_loop_rounds_witness :
  round_as_specified 60 hung_schedule [next_schedule] hung_world
  /\ probes_independent
  /\ (fst (monitor_loop 60 [hung_schedule; next_schedule] hung_world)
      = Ok ([Snapshot (checks (w_db hung_world));
             Started 1; Started 2; Started 3; Settled 1; Settled 3;
             Registered "https://late.example/"; Settled 2;
             Slept 60; Registered "https://later.example/"]
            ++ Snapshot (checks (w_db (snd (monitor_loop_body
                                              60 hung_schedule hung_world))))
            :: [Started 1; Started 2; Started 3; Started 4; Started 5;
                Settled 5; Settled 4; Settled 3; Settled 2; Settled 1;
                Slept 60])
      /\ urls (w_db hung_world)
         = ["https://a.example/"; "https://hung.example/";
            "https://b.example/"]%string
      /\ urls (w_db (snd (monitor_loop_body 60 hung_schedule hung_world)))
         = ["https://a.example/"; "https://hung.example/";
            "https://b.example/"; "https://late.example/";
            "https://later.example/"]%string
      /\ map (fun r => (r_check_id r, r_ok r, r_status_code r))
             (results (w_db (snd (monitor_loop_body
                                    60 hung_schedule hung_world))))
         = [(1, 1, Some 200); (3, 1, Some 200); (2, 0, None)]%Z).
Proof.
  apply (monitor_loop_rounds 60 hung_schedule [next_schedule] hung_world).
  exact (reachable_db_ok clock_ms http_one_hung short_url hung_history).
Defined.
